(** * Boost.Geometry overlay: following a linestring through a polygon

    A shallow embedding of [detail::overlay::follow]
    (boost/geometry/algorithms/detail/overlay/follow.hpp): the comparator
    [sort_on_segment], the classifiers [is_entering], [is_leaving],
    [is_staying_inside], [was_entered] and the scan of [apply], together
    with the properties of the scan that the specification states.

    The class is a template over the point, polygon and distance types;
    the development is parametric in them in the same way.  The loop of
    [apply] is a left fold of its body, [step], over the sorted turns; the
    output iterator is the list of pieces written so far. *)

From Stdlib Require Import ZArith List Bool Lia Permutation Sorted.
Import ListNotations.
Local Open Scope Z_scope.

(** ** Data model *)

(** Modelled from the spec: segment_identifier.hpp, whose source is
    missing.  A segment identifier is the tuple (source, multi_index,
    ring_index, segment_index); the constructor takes the fields in this
    order, as in [segment_identifier(0, -1, -1, -1)] of [apply]. *)
Record segment_identifier : Type := mk_segment_identifier
  { source_index : Z;
    multi_index : Z;
    ring_index : Z;
    segment_index : Z }.

(** Modelled from the spec: [operator==] of segment_identifier, equality of
    the four fields. *)
Definition seg_eqb (a b : segment_identifier) : bool :=
  (source_index a =? source_index b)
  && (multi_index a =? multi_index b)
  && (ring_index a =? ring_index b)
  && (segment_index a =? segment_index b).

(** Modelled from the spec: [operator<] of segment_identifier, the
    lexicographic order on (source, multi_index, ring_index,
    segment_index). *)
Definition seg_ltb (a b : segment_identifier) : bool :=
  if negb (source_index a =? source_index b)
  then source_index a <? source_index b
  else if negb (multi_index a =? multi_index b)
  then multi_index a <? multi_index b
  else if negb (ring_index a =? ring_index b)
  then ring_index a <? ring_index b
  else segment_index a <? segment_index b.

(** Modelled from the spec: the operation kinds of turn_info.hpp, a closed
    set (intersection, union, continue, blocked, none). *)
Inductive operation_type : Type :=
| operation_none
| operation_union
| operation_intersection
| operation_blocked
| operation_continue.

(** Modelled from the spec: the methods of turn_info.hpp (crosses,
    collinear, equal, touch, touch_interior, none, and the others the spec
    leaves unnamed). *)
Inductive method_type : Type :=
| method_none
| method_crosses
| method_touch
| method_touch_interior
| method_collinear
| method_equal
| method_other.

Definition operation_eqb (a b : operation_type) : bool :=
  match a, b with
  | operation_none, operation_none
  | operation_union, operation_union
  | operation_intersection, operation_intersection
  | operation_blocked, operation_blocked
  | operation_continue, operation_continue => true
  | _, _ => false
  end.

Definition method_eqb (a b : method_type) : bool :=
  match a, b with
  | method_none, method_none
  | method_crosses, method_crosses
  | method_touch, method_touch
  | method_touch_interior, method_touch_interior
  | method_collinear, method_collinear
  | method_equal, method_equal
  | method_other, method_other => true
  | _, _ => false
  end.

(** Modelled from the spec: the enrichment of an operation, of which the
    scan reads the distance along the segment only. *)
Record enrichment_info (distance_type : Type) : Type := mk_enrichment_info
  { distance : distance_type }.

(** Modelled from the spec: one operation record of a turn. *)
Record turn_operation (distance_type : Type) : Type := mk_turn_operation
  { operation : operation_type;
    seg_id : segment_identifier;
    enriched : enrichment_info distance_type }.

(** Modelled from the spec: a turn.  [operations] holds the operation on
    the linestring side, [operations[0]], and the one on the polygon side. *)
Record turn_info (Point distance_type : Type) : Type := mk_turn_info
  { point : Point;
    method : method_type;
    operations : turn_operation distance_type * turn_operation distance_type }.

Arguments distance {distance_type} _.
Arguments mk_enrichment_info {distance_type} _.
Arguments operation {distance_type} _.
Arguments seg_id {distance_type} _.
Arguments enriched {distance_type} _.
Arguments mk_turn_operation {distance_type} _ _ _.
Arguments point {Point distance_type} _.
Arguments method {Point distance_type} _.
Arguments operations {Point distance_type} _.
Arguments mk_turn_info {Point distance_type} _ _ _.

(** The verdicts of the if/else-if chain in the loop of [apply]. *)
Inductive verdict : Type :=
| STAYING_INSIDE
| ENTERING
| LEAVING
| IGNORE.

(** ** std::sort *)

(** [std::sort(first, last, comp)] promises a permutation of the range in
    which no element is [comp]-less than an element before it.  It does not
    promise anything about the order of equivalent elements. *)
Definition sort_contract {A : Type} (comp : A -> A -> bool)
    (sort : list A -> list A) : Prop :=
  forall l : list A,
    Permutation l (sort l)
    /\ StronglySorted (fun a b => comp b a = false) (sort l).

(** Two sorting functions to instantiate [std::sort] with.  Both insert
    an element in front of the first element that is not less than it. *)
Fixpoint insert_before {A : Type} (comp : A -> A -> bool) (x : A)
    (l : list A) : list A :=
  match l with
  | [] => [x]
  | y :: l' => if comp y x then y :: insert_before comp x l' else x :: l
  end.

(** Insertion from the right end: equivalent elements keep their order. *)
Fixpoint stable_sort {A : Type} (comp : A -> A -> bool) (l : list A)
    : list A :=
  match l with
  | [] => []
  | x :: l' => insert_before comp x (stable_sort comp l')
  end.

(** Insertion from the left end: equivalent elements end up reversed. *)
Definition reversing_sort {A : Type} (comp : A -> A -> bool) (l : list A)
    : list A :=
  fold_left (fun acc x => insert_before comp x acc) l [].

(** ** The algorithm *)

Section Follow.

(** The template parameters: the point type with the equality that
    duplicate suppression uses, the polygon type, [geometry::within], the
    type of distances with its [<], and [std::sort]. *)
Variable Point : Type.
Variable Point_eq_dec : forall p q : Point, {p = q} + {p <> q}.
Variable Polygon : Type.
Variable within : Point -> Polygon -> bool.
Variable distance_type : Type.
Variable dist_ltb : distance_type -> distance_type -> bool.
Variable std_sort :
  (turn_info Point distance_type -> turn_info Point distance_type -> bool) ->
  list (turn_info Point distance_type) -> list (turn_info Point distance_type).

Local Abbreviation LineString := (list Point).
Local Abbreviation LineStringOut := (list Point).
Local Abbreviation Turn := (turn_info Point distance_type).
Local Abbreviation Operation := (turn_operation distance_type).

(** [turn.operations[0]], which is also [*boost::begin(it->operations)]. *)
Definition operations0 (turn : Turn) : Operation := fst (operations turn).

(** The last vertex of a piece, if any. *)
Definition back (piece : LineStringOut) : option Point :=
  hd_error (rev piece).

(** Modelled from the spec: append_no_duplicates.hpp, whose source is
    missing.  [append_no_duplicates(piece, point)] appends unless the point
    is equal to the last vertex of the piece. *)
Definition append_no_duplicates (piece : LineStringOut) (p : Point)
    : LineStringOut :=
  match back piece with
  | Some q => if Point_eq_dec q p then piece else piece ++ [p]
  | None => piece ++ [p]
  end.

(** The vertices of [ls] whose index [i] satisfies
    [after < i <= to_index]. *)
Definition vertices_between (ls : LineString) (after to_index : Z)
    : list Point :=
  firstn (Z.to_nat (to_index - Z.max after (-1)))
         (skipn (Z.to_nat (after + 1)) ls).

(** Modelled from the spec: copy_segments.hpp, whose source is missing.
    [copy_segments<false>(ls, from_seg_id, to_index, piece)] appends to the
    piece, with duplicate suppression, the vertices of [ls] strictly after
    the anchor [from_seg_id] up to and including the vertex of index
    [to_index]. *)
Definition copy_segments (ls : LineString) (from_seg_id : segment_identifier)
    (to_index : Z) (piece : LineStringOut) : LineStringOut :=
  fold_left append_no_duplicates
            (vertices_between ls (segment_index from_seg_id) to_index)
            piece.

(** [geometry::within(linestring[0], polygon)].  Indexing an empty
    linestring is undefined in the source; the model answers [false]
    there. *)
Definition within_front (ls : LineString) (pg : Polygon) : bool :=
  match ls with
  | v0 :: _ => within v0 pg
  | [] => false
  end.

(** [sort_on_segment::operator()]. *)
Definition sort_on_segment (left right : Turn) : bool :=
  let sl := seg_id (operations0 left) in
  let sr := seg_id (operations0 right) in
  if seg_eqb sl sr
  then dist_ltb (distance (enriched (operations0 left)))
                (distance (enriched (operations0 right)))
  else seg_ltb sl sr.

Definition is_entering (turn : Turn) (op : Operation) : bool :=
  operation_eqb (operation op) operation_intersection
  || operation_eqb (operation op) operation_continue
  || operation_eqb (operation op) operation_blocked.

Definition is_leaving (turn : Turn) (op : Operation) (entered first : bool)
    (ls : LineString) (pg : Polygon) : bool :=
  if operation_eqb (operation op) operation_union
  then entered
       || method_eqb (method turn) method_crosses
       || (first && within_front ls pg)
  else false.

Definition is_staying_inside (turn : Turn) (op : Operation)
    (entered first : bool) (ls : LineString) (pg : Polygon) : bool :=
  if method_eqb (method turn) method_crosses
  then false
  else if is_entering turn op
  then entered || (first && within_front ls pg)
  else false.

Definition was_entered (turn : Turn) (first : bool) : bool :=
  if first && (method_eqb (method turn) method_collinear
               || method_eqb (method turn) method_equal)
  then true
  else false.

(** The local variables of [apply] that the loop updates, and the pieces
    written to [out] so far. *)
Record scan_state : Type := mk_scan_state
  { entered : bool;
    first : bool;
    current_segment_id : segment_identifier;
    current_piece : LineStringOut;
    out : list LineStringOut }.

(** The state before the loop. *)
Definition initial_state : scan_state :=
  {| entered := false;
     first := true;
     current_segment_id := mk_segment_identifier 0 (-1) (-1) (-1);
     current_piece := [];
     out := [] |}.

(** The flag [entered] after the [was_entered] test of the loop body. *)
Definition pre_mark (st : scan_state) (turn : Turn) : bool :=
  if was_entered turn (first st) then true else entered st.

(** One iteration of the loop of [apply]. *)
Definition step (ls : LineString) (pg : Polygon) (st : scan_state)
    (turn : Turn) : scan_state :=
  let iit := operations0 turn in
  let entered1 := pre_mark st turn in
  if is_staying_inside turn iit entered1 (first st) ls pg then
    {| entered := true;
       first := false;
       current_segment_id := current_segment_id st;
       current_piece := current_piece st;
       out := out st |}
  else if is_entering turn iit then
    {| entered := true;
       first := false;
       current_segment_id := seg_id iit;
       current_piece := append_no_duplicates (current_piece st) (point turn);
       out := out st |}
  else if is_leaving turn iit entered1 (first st) ls pg then
    let piece :=
      append_no_duplicates
        (copy_segments ls (current_segment_id st)
                       (segment_index (seg_id iit)) (current_piece st))
        (point turn) in
    match piece with
    | _ :: _ =>
      {| entered := false;
         first := false;
         current_segment_id := current_segment_id st;
         current_piece := [];
         out := out st ++ [piece] |}
    | [] =>
      {| entered := false;
         first := false;
         current_segment_id := current_segment_id st;
         current_piece := piece;
         out := out st |}
    end
  else
    {| entered := entered1;
       first := false;
       current_segment_id := current_segment_id st;
       current_piece := current_piece st;
       out := out st |}.

(** The branch of the if/else-if chain that [step] takes; [entered1] is
    the flag after the [was_entered] test. *)
Definition classify (ls : LineString) (pg : Polygon) (turn : Turn)
    (entered1 first : bool) : verdict :=
  let iit := operations0 turn in
  if is_staying_inside turn iit entered1 first ls pg then STAYING_INSIDE
  else if is_entering turn iit then ENTERING
  else if is_leaving turn iit entered1 first ls pg then LEAVING
  else IGNORE.

(** The piece after the [if (entered)] that follows the loop. *)
Definition tail_piece (ls : LineString) (st : scan_state) : LineStringOut :=
  if entered st
  then copy_segments ls (current_segment_id st)
                     (Z.of_nat (length ls) - 1) (current_piece st)
  else current_piece st.

(** The code after the loop: the pieces written when [apply] returns. *)
Definition flush (ls : LineString) (st : scan_state) : list LineStringOut :=
  match tail_piece ls st with
  | _ :: _ => out st ++ [tail_piece ls st]
  | [] => out st
  end.

(** The loop of [apply] over turns that are already in their final
    order. *)
Definition scan (ls : LineString) (pg : Polygon) (turns : list Turn)
    : scan_state :=
  fold_left (step ls pg) turns initial_state.

(** [follow::apply].  The turns are sorted in place, so the result is the
    turn list as the call leaves it together with the pieces written.  The
    argument [op] is not read by the body. *)
Definition apply (ls : LineString) (pg : Polygon) (op : operation_type)
    (turns : list Turn) : list Turn * list LineStringOut :=
  let turns' := std_sort sort_on_segment turns in
  (turns', flush ls (scan ls pg turns')).

End Follow.

Arguments operations0 {Point distance_type} turn.
Arguments back {Point} piece.
Arguments append_no_duplicates {Point} Point_eq_dec piece p.
Arguments vertices_between {Point} ls after to_index.
Arguments copy_segments {Point} Point_eq_dec ls from_seg_id to_index piece.
Arguments within_front {Point Polygon} within ls pg.
Arguments is_entering {Point distance_type} turn op.
Arguments is_leaving {Point Polygon} within {distance_type} turn op entered first ls pg.
Arguments is_staying_inside {Point Polygon} within {distance_type} turn op entered first ls pg.
Arguments was_entered {Point distance_type} turn first.
Arguments pre_mark {Point distance_type} st turn.
Arguments step {Point} Point_eq_dec {Polygon} within {distance_type} ls pg st turn.
Arguments scan {Point} Point_eq_dec {Polygon} within {distance_type} ls pg turns.
Arguments flush {Point} Point_eq_dec ls st.
Arguments tail_piece {Point} Point_eq_dec ls st.
Arguments apply {Point} Point_eq_dec {Polygon} within {distance_type} dist_ltb std_sort ls pg op turns.
Arguments sort_on_segment {Point distance_type} dist_ltb left right.
Arguments classify {Point Polygon} within {distance_type} ls pg turn entered1 first.
Arguments initial_state {Point}.
Arguments entered {Point} _.
Arguments first {Point} _.
Arguments current_segment_id {Point} _.
Arguments current_piece {Point} _.
Arguments out {Point} _.
Arguments mk_scan_state {Point} _ _ _ _ _.

(** ** The scenarios of the specification, on integer coordinates *)

Module Scenario.

Definition P2 : Type := (Z * Z)%type.

Definition P2_eq_dec (p q : P2) : {p = q} + {p <> q}.
Proof. decide equality; apply Z.eq_dec. Defined.

(** A box [lo..hi] x [lo..hi] stands for the polygon. *)
Definition Box : Type := (Z * Z)%type.

(** Strictly inside the box; the boundary is not inside. *)
Definition within_box (p : P2) (b : Box) : bool :=
  (fst b <? fst p) && (fst p <? snd b) && (fst b <? snd p) && (snd p <? snd b).

Definition square : Box := (0, 10).

Definition turn_at (p : P2) (m : method_type) (o : operation_type)
    (seg : Z) (d : Z) : turn_info P2 Z :=
  mk_turn_info p m
    (mk_turn_operation o (mk_segment_identifier 0 (-1) (-1) seg)
                       (mk_enrichment_info d),
     mk_turn_operation operation_none (mk_segment_identifier 1 (-1) (-1) 0)
                       (mk_enrichment_info 0)).

Definition follow_with
    (sort : (turn_info P2 Z -> turn_info P2 Z -> bool) ->
            list (turn_info P2 Z) -> list (turn_info P2 Z))
    (ls : list P2) (turns : list (turn_info P2 Z)) : list (list P2) :=
  snd (apply P2_eq_dec within_box Z.ltb sort ls square
             operation_intersection turns).

Definition follow := follow_with stable_sort.

Definition S1_line : list P2 := [(-1, 5); (5, 5); (11, 5)].
Definition S1_turns : list (turn_info P2 Z) :=
  [ turn_at (10, 5) method_crosses operation_union 1 5;
    turn_at (0, 5) method_crosses operation_intersection 0 1 ].

Definition S2_line : list P2 := [(5, 5); (11, 5)].
Definition S2_turns : list (turn_info P2 Z) :=
  [ turn_at (10, 5) method_crosses operation_union 0 5 ].

Definition S5_line : list P2 := [(1, 1); (2, 2); (3, 3)].

(** S3, with an entering-like operation at the collinear first turn. *)
Definition S3_line : list P2 := [(0, 0); (10, 0); (10, 10)].
Definition S3_turn : turn_info P2 Z :=
  turn_at (10, 0) method_collinear operation_intersection 0 10.

(** The turn of S2, which is the first turn, crosses and leaves. *)
Definition S2_turn : turn_info P2 Z :=
  turn_at (10, 5) method_crosses operation_union 0 5.

(** Two turns on the same segment at the same distance, one entering and
    one leaving, and the same scan with a sort that reverses ties. *)
Definition tie_enter : turn_info P2 Z :=
  turn_at (0, 5) method_crosses operation_intersection 0 1.
Definition tie_leave : turn_info P2 Z :=
  turn_at (0, 5) method_crosses operation_union 0 1.
Definition tie_turns : list (turn_info P2 Z) := [tie_leave; tie_enter].

(** The same two tied turns followed by fifteen turns further along the
    linestring, with operation none: seventeen turns in all. *)
Definition filler (k : nat) : turn_info P2 Z :=
  turn_at (11, 5) method_touch operation_none 1 (Z.of_nat k).
Definition fillers : list (turn_info P2 Z) := map filler (seq 1 15).
Definition tie_turns17 : list (turn_info P2 Z) := tie_turns ++ fillers.

Definition comp : turn_info P2 Z -> turn_info P2 Z -> bool :=
  sort_on_segment Z.ltb.

Definition run (sort : (turn_info P2 Z -> turn_info P2 Z -> bool) ->
                       list (turn_info P2 Z) -> list (turn_info P2 Z))
    (ls : list P2) (turns : list (turn_info P2 Z))
    : list (turn_info P2 Z) * list (list P2) :=
  apply P2_eq_dec within_box Z.ltb sort ls square operation_intersection turns.

(** The turns of S1 in the order of the linestring. *)
Definition S1_sorted : list (turn_info P2 Z) :=
  [ turn_at (0, 5) method_crosses operation_intersection 0 1;
    turn_at (10, 5) method_crosses operation_union 1 5 ].

(** S3: the collinear first turn with operation union. *)
Definition S3_leave_turn : turn_info P2 Z :=
  turn_at (10, 0) method_collinear operation_union 0 10.

(** An in-polygon predicate that differs from [within_box] everywhere. *)
Definition outside_box (p : P2) (b : Box) : bool := negb (within_box p b).

End Scenario.

(** ** The statements of the specification *)

Section Statements.

Context {Point Polygon distance_type : Type}.
Variable within : Point -> Polygon -> bool.
Variable dist_ltb : distance_type -> distance_type -> bool.

(** Rule 4 of the classifier: the operation is a union and the scan has
    entered, or the turn crosses, or this is the first turn and the first
    vertex of the linestring is within the polygon. *)
Definition leaving_rule (ls : list Point) (pg : Polygon)
    (turn : turn_info Point distance_type) (entered first : bool) : Prop :=
  operation (operations0 turn) = operation_union
  /\ (entered = true
      \/ method turn = method_crosses
      \/ (first = true
          /\ exists v0, hd_error ls = Some v0 /\ within v0 pg = true)).

(** The operation is one of intersection, continue, blocked. *)
Definition entering_like (op : turn_operation distance_type) : Prop :=
  operation op = operation_intersection
  \/ operation op = operation_continue
  \/ operation op = operation_blocked.

(** Position in the list agrees with the comparator in both directions. *)
Definition precedes_iff_less (l : list (turn_info Point distance_type))
    : Prop :=
  forall (i j : nat) (a b : turn_info Point distance_type),
    nth_error l i = Some a -> nth_error l j = Some b ->
    ((i < j)%nat <-> sort_on_segment dist_ltb a b = true).

(** [(seg_id, distance)] of [a] is at most that of [b]. *)
Definition key_le (a b : turn_info Point distance_type) : Prop :=
  seg_ltb (seg_id (operations0 a)) (seg_id (operations0 b)) = true
  \/ (seg_id (operations0 a) = seg_id (operations0 b)
      /\ dist_ltb (distance (enriched (operations0 b)))
                  (distance (enriched (operations0 a))) = false).

Definition nondecreasing (l : list (turn_info Point distance_type)) : Prop :=
  forall (i j : nat) (a b : turn_info Point distance_type),
    (i < j)%nat -> nth_error l i = Some a -> nth_error l j = Some b ->
    key_le a b.

(** Equal seg_id and equal distance. *)
Definition same_key (a b : turn_info Point distance_type) : Prop :=
  seg_id (operations0 a) = seg_id (operations0 b)
  /\ distance (enriched (operations0 a)) = distance (enriched (operations0 b)).

(** Turns with the same key come in [l'] in the order they have in [l]. *)
Definition keeps_tie_order (l l' : list (turn_info Point distance_type))
    : Prop :=
  forall (i j : nat) (a b : turn_info Point distance_type),
    (i < j)%nat -> nth_error l i = Some a -> nth_error l j = Some b ->
    same_key a b ->
    exists i' j' : nat,
      (i' < j')%nat /\ nth_error l' i' = Some a /\ nth_error l' j' = Some b.

(** Neither turn is less than the other: a tie for the comparator. *)
Definition tied (a b : turn_info Point distance_type) : bool :=
  negb (sort_on_segment dist_ltb a b) && negb (sort_on_segment dist_ltb b a).

(** No two turns of the list are tied. *)
Definition no_ties (l : list (turn_info Point distance_type)) : Prop :=
  ForallOrdPairs
    (fun a b => sort_on_segment dist_ltb a b = true
                \/ sort_on_segment dist_ltb b a = true) l.

(** The operation on the linestring side is a union, resp. none. *)
Definition union_turn (t : turn_info Point distance_type) : bool :=
  operation_eqb (operation (operations0 t)) operation_union.

Definition none_turn (t : turn_info Point distance_type) : bool :=
  operation_eqb (operation (operations0 t)) operation_none.

(** Every turn is less than the turns after it. *)
Definition strictly_increasing (l : list (turn_info Point distance_type))
    : Prop :=
  StronglySorted (fun a b => sort_on_segment dist_ltb a b = true) l.

(** No vertex of the piece is followed by an equal vertex. *)
Definition no_adjacent_duplicates (piece : list Point) : Prop :=
  forall (l1 : list Point) (a b : Point) (l2 : list Point),
    piece = l1 ++ a :: b :: l2 -> a <> b.

(** The vertex is one of the linestring or the point of one of the turns. *)
Definition from_inputs (ls : list Point)
    (turns : list (turn_info Point distance_type)) (v : Point) : Prop :=
  In v ls \/ exists t, In t turns /\ point t = v.

End Statements.

(** ** Equality tests *)

Lemma operation_eqb_eq (a b : operation_type) :
  operation_eqb a b = true <-> a = b.
Proof. destruct a, b; simpl; split; congruence. Qed.

Lemma method_eqb_eq (a b : method_type) :
  method_eqb a b = true <-> a = b.
Proof. destruct a, b; simpl; split; congruence. Qed.

Lemma seg_eqb_eq (a b : segment_identifier) :
  seg_eqb a b = true <-> a = b.
Proof.
  destruct a as [s m r i], b as [s' m' r' i']; unfold seg_eqb; simpl.
  rewrite !andb_true_iff, !Z.eqb_eq.
  split.
  - intros [[[-> ->] ->] ->]; reflexivity.
  - intros H; injection H; auto.
Qed.

Lemma seg_eqb_refl (a : segment_identifier) : seg_eqb a a = true.
Proof. apply seg_eqb_eq; reflexivity. Qed.

(** [operator<] spelled out as the lexicographic order on the fields. *)
Lemma seg_ltb_lex (a b : segment_identifier) :
  seg_ltb a b = true <->
  source_index a < source_index b
  \/ (source_index a = source_index b
      /\ (multi_index a < multi_index b
          \/ (multi_index a = multi_index b
              /\ (ring_index a < ring_index b
                  \/ (ring_index a = ring_index b
                      /\ segment_index a < segment_index b))))).
Proof.
  unfold seg_ltb.
  destruct (Z.eqb_spec (source_index a) (source_index b));
    destruct (Z.eqb_spec (multi_index a) (multi_index b));
    destruct (Z.eqb_spec (ring_index a) (ring_index b));
    simpl; rewrite Z.ltb_lt; lia.
Qed.

Lemma seg_ltb_false (a b : segment_identifier) :
  seg_ltb a b = false <-> ~ seg_ltb a b = true.
Proof. destruct (seg_ltb a b); split; congruence. Qed.

Lemma seg_neq_fields (a b : segment_identifier) :
  a <> b ->
  source_index a <> source_index b \/ multi_index a <> multi_index b
  \/ ring_index a <> ring_index b \/ segment_index a <> segment_index b.
Proof.
  intros Hne.
  destruct (Z.eq_dec (source_index a) (source_index b)) as [Hs|]; [|auto].
  destruct (Z.eq_dec (multi_index a) (multi_index b)) as [Hm|]; [|auto].
  destruct (Z.eq_dec (ring_index a) (ring_index b)) as [Hr|]; [|auto].
  destruct (Z.eq_dec (segment_index a) (segment_index b)) as [Hi|]; [|auto].
  exfalso; apply Hne.
  destruct a, b; simpl in *; congruence.
Qed.

Lemma seg_ltb_irrefl (a : segment_identifier) : seg_ltb a a = false.
Proof. apply seg_ltb_false; rewrite seg_ltb_lex; lia. Qed.

Lemma seg_ltb_asym (a b : segment_identifier) :
  seg_ltb a b = true -> seg_ltb b a = false.
Proof.
  intros H; apply seg_ltb_false; revert H; rewrite !seg_ltb_lex; lia.
Qed.

Lemma seg_ltb_trans (a b c : segment_identifier) :
  seg_ltb a b = true -> seg_ltb b c = true -> seg_ltb a c = true.
Proof. rewrite !seg_ltb_lex; lia. Qed.

Lemma seg_ltb_total (a b : segment_identifier) :
  seg_ltb a b = false -> a <> b -> seg_ltb b a = true.
Proof.
  intros H Hne; apply seg_neq_fields in Hne.
  apply seg_ltb_false in H; revert H; rewrite !seg_ltb_lex; lia.
Qed.

(** ** Pieces and the helpers that extend them *)

Section Pieces.

Context {Point : Type} (Point_eq_dec : forall p q : Point, {p = q} + {p <> q}).

Lemma back_snoc (piece : list Point) (p : Point) :
  back (piece ++ [p]) = Some p.
Proof. unfold back; rewrite rev_unit; reflexivity. Qed.

Lemma back_nil_iff (piece : list Point) : back piece = None <-> piece = [].
Proof.
  unfold back; split.
  - destruct piece as [|q piece] using rev_ind; [reflexivity|].
    rewrite rev_unit; discriminate.
  - intros ->; reflexivity.
Qed.

Lemma append_no_duplicates_back (piece : list Point) (p : Point) :
  back (append_no_duplicates Point_eq_dec piece p) = Some p.
Proof.
  unfold append_no_duplicates.
  destruct (back piece) as [q|] eqn:Hb.
  - destruct (Point_eq_dec q p) as [->|_]; [exact Hb | apply back_snoc].
  - apply back_snoc.
Qed.

Lemma append_no_duplicates_not_nil (piece : list Point) (p : Point) :
  append_no_duplicates Point_eq_dec piece p <> [].
Proof.
  intros H.
  pose proof (append_no_duplicates_back piece p) as Hb.
  rewrite H in Hb; discriminate.
Qed.

Lemma append_no_duplicates_nil (p : Point) :
  append_no_duplicates Point_eq_dec [] p = [p].
Proof. reflexivity. Qed.

(** [vertices_between] lists, in order, the vertices whose index is after
    [after] and at most [to_index]. *)
Lemma vertices_between_nth (ls : list Point) (after to_index : Z) (k : nat) :
  nth_error (vertices_between ls after to_index) k
  = if Z.of_nat (Z.to_nat (after + 1) + k) <=? to_index
    then nth_error ls (Z.to_nat (after + 1) + k)
    else None.
Proof.
  unfold vertices_between.
  rewrite nth_error_firstn, nth_error_skipn.
  destruct (Nat.ltb_spec k (Z.to_nat (to_index - Z.max after (-1))));
    destruct (Z.leb_spec (Z.of_nat (Z.to_nat (after + 1) + k)) to_index);
    try reflexivity; lia.
Qed.

(** Copying up to the last vertex takes every vertex after the anchor. *)
Lemma vertices_between_to_end (ls : list Point) (after : Z) :
  -1 <= after ->
  vertices_between ls after (Z.of_nat (length ls) - 1)
  = skipn (Z.to_nat (after + 1)) ls.
Proof.
  intros Hafter; unfold vertices_between.
  apply firstn_all2.
  rewrite length_skipn; lia.
Qed.

End Pieces.

(** ** The classifier and one iteration of the loop *)

Section Scan.

Context {Point : Type} (Point_eq_dec : forall p q : Point, {p = q} + {p <> q}).
Context {Polygon : Type} (within : Point -> Polygon -> bool).
Context {distance_type : Type}.

Local Abbreviation Turn := (turn_info Point distance_type).
Local Abbreviation State := (@scan_state Point).
Local Abbreviation step_ := (step Point_eq_dec within).
Local Abbreviation classify_ := (classify within).

Implicit Types (ls : list Point) (pg : Polygon) (turn : Turn) (st : State).

Lemma within_front_true ls pg :
  within_front within ls pg = true
  <-> exists v0, hd_error ls = Some v0 /\ within v0 pg = true.
Proof.
  destruct ls as [|v0 ls]; simpl; split.
  - discriminate.
  - intros [v0 [H _]]; discriminate.
  - intros H; exists v0; auto.
  - intros [v [H Hw]]; injection H as ->; exact Hw.
Qed.

Lemma is_entering_iff turn (op : turn_operation distance_type) :
  is_entering turn op = true <-> entering_like op.
Proof.
  unfold is_entering, entering_like.
  rewrite !orb_true_iff, !operation_eqb_eq; tauto.
Qed.

Lemma is_leaving_iff ls pg turn (op : turn_operation distance_type)
    (entered1 first : bool) :
  is_leaving within turn op entered1 first ls pg = true
  <-> operation op = operation_union
      /\ (entered1 = true
          \/ method turn = method_crosses
          \/ (first = true
              /\ exists v0, hd_error ls = Some v0 /\ within v0 pg = true)).
Proof.
  unfold is_leaving.
  destruct (operation_eqb (operation op) operation_union) eqn:Hop.
  - apply operation_eqb_eq in Hop.
    rewrite !orb_true_iff, andb_true_iff, method_eqb_eq, within_front_true.
    tauto.
  - split; [discriminate|].
    intros [Hu _]; apply operation_eqb_eq in Hu; congruence.
Qed.

(** A union is not entering-like, so neither of the first two branches
    takes a union turn. *)
Lemma union_not_entering turn (op : turn_operation distance_type) :
  operation op = operation_union -> is_entering turn op = false.
Proof. unfold is_entering; intros ->; reflexivity. Qed.

Lemma union_not_staying_inside ls pg turn (op : turn_operation distance_type)
    (entered1 first : bool) :
  operation op = operation_union ->
  is_staying_inside within turn op entered1 first ls pg = false.
Proof.
  intros Hu; unfold is_staying_inside.
  rewrite (union_not_entering turn op Hu).
  destruct (method_eqb (method turn) method_crosses); reflexivity.
Qed.

Lemma classify_leaving_iff ls pg turn (entered1 first : bool) :
  classify_ ls pg turn entered1 first = LEAVING
  <-> is_leaving within turn (operations0 turn) entered1 first ls pg = true.
Proof.
  unfold classify; split.
  - destruct (is_staying_inside _ _ _ _ _ _); [discriminate|].
    destruct (is_entering _ _); [discriminate|].
    destruct (is_leaving _ _ _ _ _ _); [reflexivity | discriminate].
  - intros Hl.
    assert (Hu : operation (operations0 turn) = operation_union)
      by (apply is_leaving_iff in Hl; tauto).
    rewrite (union_not_staying_inside ls pg turn _ entered1 first Hu).
    rewrite (union_not_entering turn _ Hu), Hl; reflexivity.
Qed.

(** [step] written by cases on the verdict. *)
Lemma step_classify ls pg st turn :
  step_ ls pg st turn =
  match classify_ ls pg turn (pre_mark st turn) (first st) with
  | STAYING_INSIDE =>
    mk_scan_state true false (current_segment_id st) (current_piece st)
                  (out st)
  | ENTERING =>
    mk_scan_state true false (seg_id (operations0 turn))
      (append_no_duplicates Point_eq_dec (current_piece st) (point turn))
      (out st)
  | LEAVING =>
    mk_scan_state false false (current_segment_id st) []
      (out st ++
       [append_no_duplicates Point_eq_dec
          (copy_segments Point_eq_dec ls (current_segment_id st)
             (segment_index (seg_id (operations0 turn))) (current_piece st))
          (point turn)])
  | IGNORE =>
    mk_scan_state (pre_mark st turn) false (current_segment_id st)
                  (current_piece st) (out st)
  end.
Proof.
  unfold step, classify.
  destruct (is_staying_inside _ _ _ _ _ _); [reflexivity|].
  destruct (is_entering _ _); [reflexivity|].
  destruct (is_leaving _ _ _ _ _ _); [|reflexivity].
  destruct (append_no_duplicates _ _ _) eqn:Hp; [|reflexivity].
  exfalso; exact (append_no_duplicates_not_nil _ _ _ Hp).
Qed.

Lemma step_first ls pg st turn : first (step_ ls pg st turn) = false.
Proof.
  rewrite step_classify; destruct (classify_ _ _ _ _ _); reflexivity.
Qed.

(** C2: the classifier yields the LEAVING verdict exactly when the
    operation is a union and the scan has entered, or the method is
    crosses, or the turn is the first one and the first vertex of the
    linestring is within the polygon; a turn whose operation is not a union
    is never classified LEAVING.  [entered1] is the flag as the rules read
    it, that is after the [was_entered] test. *)
Theorem leaving_verdict ls pg turn (entered1 first : bool) :
  (is_leaving within turn (operations0 turn) entered1 first ls pg = true
   <-> leaving_rule within ls pg turn entered1 first)
  /\ (classify_ ls pg turn entered1 first = LEAVING
      <-> leaving_rule within ls pg turn entered1 first)
  /\ (operation (operations0 turn) <> operation_union ->
      classify_ ls pg turn entered1 first <> LEAVING).
Proof.
  assert (Hc : classify_ ls pg turn entered1 first = LEAVING
               <-> leaving_rule within ls pg turn entered1 first).
  { rewrite classify_leaving_iff; apply is_leaving_iff. }
  split; [apply is_leaving_iff|].
  split; [exact Hc|].
  intros Hne Hl; apply Hc in Hl; destruct Hl as [Hu _]; auto.
Qed.

(** C3, amended: when the first turn has method collinear or equal and an
    entering-like operation, the pre-mark fires and the turn is then taken
    by the STAYING_INSIDE branch: [entered] is set, nothing is appended to
    the current piece and [current_segment_id] keeps its value. *)
Theorem first_collinear_entering_stays_inside ls pg st turn :
  first st = true ->
  method turn = method_collinear \/ method turn = method_equal ->
  entering_like (operations0 turn) ->
  was_entered turn (first st) = true
  /\ classify_ ls pg turn (pre_mark st turn) (first st) = STAYING_INSIDE
  /\ step_ ls pg st turn
     = mk_scan_state true false (current_segment_id st) (current_piece st)
                     (out st).
Proof.
  intros Hfirst Hm Hop.
  assert (Hw : was_entered turn (first st) = true).
  { unfold was_entered; rewrite Hfirst.
    destruct Hm as [-> | ->]; reflexivity. }
  assert (Hc : classify_ ls pg turn (pre_mark st turn) (first st)
               = STAYING_INSIDE).
  { unfold classify, is_staying_inside, pre_mark; rewrite Hw.
    apply (is_entering_iff turn) in Hop; rewrite Hop.
    destruct Hm as [-> | ->]; reflexivity. }
  split; [exact Hw|]; split; [exact Hc|].
  rewrite step_classify, Hc; reflexivity.
Qed.

(** C4, amended: a turn classified LEAVING always emits exactly one piece,
    also when the scan has never entered and the current piece is empty:
    the vertices that [copy_segments] takes from the anchor up to the
    segment of the turn, followed by the point of the turn.  That piece is
    not empty, and the current piece is cleared. *)
Theorem leaving_always_emits ls pg st turn :
  classify_ ls pg turn (pre_mark st turn) (first st) = LEAVING ->
  exists piece : list Point,
    piece = append_no_duplicates Point_eq_dec
              (copy_segments Point_eq_dec ls (current_segment_id st)
                 (segment_index (seg_id (operations0 turn)))
                 (current_piece st))
              (point turn)
    /\ piece <> []
    /\ out (step_ ls pg st turn) = out st ++ [piece]
    /\ current_piece (step_ ls pg st turn) = []
    /\ entered (step_ ls pg st turn) = false.
Proof.
  intros Hc; rewrite step_classify, Hc; simpl.
  eexists; split; [reflexivity|].
  split; [apply append_no_duplicates_not_nil|].
  repeat split.
Qed.

(** *** Pieces written are never empty *)

Lemma step_out_not_nil ls pg st turn :
  Forall (fun piece => piece <> []) (out st) ->
  Forall (fun piece => piece <> []) (out (step_ ls pg st turn)).
Proof.
  intros H; rewrite step_classify.
  destruct (classify_ _ _ _ _ _); simpl; try exact H.
  apply Forall_app; split; [exact H|].
  constructor; [apply append_no_duplicates_not_nil | constructor].
Qed.

Lemma fold_step_out_not_nil ls pg (turns : list Turn) st :
  Forall (fun piece => piece <> []) (out st) ->
  Forall (fun piece => piece <> [])
         (out (fold_left (step_ ls pg) turns st)).
Proof.
  revert st; induction turns as [|turn turns IH]; intros st H; simpl.
  - exact H.
  - apply IH, step_out_not_nil, H.
Qed.

Lemma flush_not_nil ls st :
  Forall (fun piece => piece <> []) (out st) ->
  Forall (fun piece => piece <> []) (flush Point_eq_dec ls st).
Proof.
  intros H; unfold flush.
  destruct (tail_piece Point_eq_dec ls st) eqn:Ht; [exact H|].
  apply Forall_app; split; [exact H|].
  constructor; [discriminate | constructor].
Qed.

(** C10: every piece that [apply] writes is non-empty, and the piece
    written at a LEAVING turn ends with the point of that turn. *)
Theorem emitted_pieces_nonempty
    (dist_ltb : distance_type -> distance_type -> bool)
    (sort : (Turn -> Turn -> bool) -> list Turn -> list Turn)
    ls pg (op : operation_type) (turns : list Turn) :
  Forall (fun piece => piece <> [])
         (snd (apply Point_eq_dec within dist_ltb sort ls pg op turns))
  /\ (forall st turn,
        classify_ ls pg turn (pre_mark st turn) (first st) = LEAVING ->
        exists piece : list Point,
          out (step_ ls pg st turn) = out st ++ [piece]
          /\ piece <> []
          /\ back piece = Some (point turn)).
Proof.
  split.
  - unfold apply, scan; simpl.
    apply flush_not_nil, fold_step_out_not_nil; constructor.
  - intros st turn Hc; rewrite step_classify, Hc; simpl.
    eexists; split; [reflexivity|].
    split; [apply append_no_duplicates_not_nil
           | apply append_no_duplicates_back].
Qed.

(** *** The code after the loop *)

Lemma fold_append_back (vs piece : list Point) :
  vs <> [] ->
  back (fold_left (append_no_duplicates Point_eq_dec) vs piece) = back vs.
Proof.
  destruct vs as [|v vs _] using rev_ind; [congruence|]; intros _.
  rewrite fold_left_app; simpl.
  rewrite append_no_duplicates_back, back_snoc; reflexivity.
Qed.

Lemma back_skipn (n : nat) (l : list Point) :
  (n < length l)%nat -> back (skipn n l) = back l.
Proof.
  intros Hn; rewrite <- (firstn_skipn n l) at 2.
  assert (Hne : skipn n l <> []).
  { intros H; apply (f_equal (@length Point)) in H.
    rewrite length_skipn in H; simpl in H; lia. }
  destruct (skipn n l) as [|x tl _] using rev_ind; [congruence|].
  rewrite app_assoc, !back_snoc; reflexivity.
Qed.

(** C7: the result of [apply] is the flush of the state the loop ends
    in.  If [entered] is set, the vertices of the linestring after the
    anchor [current_segment_id], up to and including the last one, are
    appended to the current piece; the piece is then written iff it is not
    empty, whatever [entered] is. *)
Theorem tail_flush
    (dist_ltb : distance_type -> distance_type -> bool)
    (sort : (Turn -> Turn -> bool) -> list Turn -> list Turn)
    ls pg (op : operation_type) (turns : list Turn) :
  snd (apply Point_eq_dec within dist_ltb sort ls pg op turns)
  = flush Point_eq_dec ls
      (scan Point_eq_dec within ls pg (sort (sort_on_segment dist_ltb) turns))
  /\ forall st,
      (entered st = true ->
       tail_piece Point_eq_dec ls st
       = fold_left (append_no_duplicates Point_eq_dec)
           (vertices_between ls (segment_index (current_segment_id st))
                             (Z.of_nat (length ls) - 1))
           (current_piece st))
      /\ (entered st = true ->
          -1 <= segment_index (current_segment_id st) ->
          tail_piece Point_eq_dec ls st
          = fold_left (append_no_duplicates Point_eq_dec)
              (skipn (Z.to_nat (segment_index (current_segment_id st) + 1)) ls)
              (current_piece st))
      /\ (entered st = true ->
          -1 <= segment_index (current_segment_id st)
              < Z.of_nat (length ls) - 1 ->
          back (tail_piece Point_eq_dec ls st) = back ls)
      /\ (entered st = false ->
          tail_piece Point_eq_dec ls st = current_piece st)
      /\ (tail_piece Point_eq_dec ls st <> [] ->
          flush Point_eq_dec ls st
          = out st ++ [tail_piece Point_eq_dec ls st])
      /\ (tail_piece Point_eq_dec ls st = [] ->
          flush Point_eq_dec ls st = out st).
Proof.
  split; [reflexivity|].
  intros st.
  assert (Hskip : entered st = true ->
                  -1 <= segment_index (current_segment_id st) ->
                  tail_piece Point_eq_dec ls st
                  = fold_left (append_no_duplicates Point_eq_dec)
                      (skipn (Z.to_nat
                                (segment_index (current_segment_id st) + 1)) ls)
                      (current_piece st)).
  { intros He Ha; unfold tail_piece, copy_segments; rewrite He.
    rewrite vertices_between_to_end by exact Ha; reflexivity. }
  repeat split.
  - intros He; unfold tail_piece, copy_segments; rewrite He; reflexivity.
  - exact Hskip.
  - intros He [Ha Hb]; rewrite (Hskip He Ha).
    assert (Hn : (Z.to_nat (segment_index (current_segment_id st) + 1)
                  < length ls)%nat) by lia.
    rewrite fold_append_back.
    + apply back_skipn, Hn.
    + intros H; apply (f_equal (@length Point)) in H.
      rewrite length_skipn in H; simpl in H; lia.
  - intros He; unfold tail_piece; rewrite He; reflexivity.
  - intros Hne; unfold flush.
    destruct (tail_piece Point_eq_dec ls st); [congruence | reflexivity].
  - intros Hnil; unfold flush; rewrite Hnil; reflexivity.
Qed.

End Scan.

(** ** The in-polygon test is only read at the first turn *)

Section WithinIndependence.

Context {Point : Type} (Point_eq_dec : forall p q : Point, {p = q} + {p <> q}).
Context {Polygon distance_type : Type}.
Variables within1 within2 : Point -> Polygon -> bool.

Local Abbreviation Turn := (turn_info Point distance_type).

Implicit Types (ls : list Point) (pg : Polygon) (turn : Turn)
         (st : @scan_state Point).

Lemma is_staying_inside_within ls pg turn (op : turn_operation distance_type)
    (entered1 first : bool) :
  method turn = method_crosses \/ first = false ->
  is_staying_inside within1 turn op entered1 first ls pg
  = is_staying_inside within2 turn op entered1 first ls pg.
Proof.
  unfold is_staying_inside; intros [-> | ->]; reflexivity.
Qed.

Lemma is_leaving_within ls pg turn (op : turn_operation distance_type)
    (entered1 first : bool) :
  method turn = method_crosses \/ first = false ->
  is_leaving within1 turn op entered1 first ls pg
  = is_leaving within2 turn op entered1 first ls pg.
Proof.
  unfold is_leaving; intros [-> | ->]; simpl;
    destruct (operation_eqb (operation op) operation_union); try reflexivity;
    rewrite ?orb_true_r; reflexivity.
Qed.

Lemma classify_within ls pg turn (entered1 first : bool) :
  method turn = method_crosses \/ first = false ->
  classify within1 ls pg turn entered1 first
  = classify within2 ls pg turn entered1 first.
Proof.
  intros H; unfold classify.
  rewrite (is_staying_inside_within ls pg turn _ entered1 first H).
  rewrite (is_leaving_within ls pg turn _ entered1 first H).
  reflexivity.
Qed.

Lemma step_within ls pg st turn :
  method turn = method_crosses \/ first st = false ->
  step Point_eq_dec within1 ls pg st turn
  = step Point_eq_dec within2 ls pg st turn.
Proof.
  intros H; rewrite !step_classify.
  rewrite (classify_within ls pg turn _ _ H); reflexivity.
Qed.

Lemma fold_step_within ls pg (turns : list Turn) st :
  first st = false ->
  fold_left (step Point_eq_dec within1 ls pg) turns st
  = fold_left (step Point_eq_dec within2 ls pg) turns st.
Proof.
  revert st; induction turns as [|turn turns IH]; intros st Hf; simpl.
  - reflexivity.
  - rewrite (step_within ls pg st turn (or_intror Hf)).
    apply IH, step_first.
Qed.

(** C8: for a turn whose method is crosses, and for any turn that is not
    the first one, the verdict, the state after the turn and the pieces
    written by the rest of the scan are the same for any two in-polygon
    predicates: [within] can change the result only through a first turn
    that does not cross. *)
Theorem within_only_at_first_turn ls pg st turn (turns : list Turn) :
  method turn = method_crosses \/ first st = false ->
  classify within1 ls pg turn (pre_mark st turn) (first st)
  = classify within2 ls pg turn (pre_mark st turn) (first st)
  /\ step Point_eq_dec within1 ls pg st turn
     = step Point_eq_dec within2 ls pg st turn
  /\ flush Point_eq_dec ls
       (fold_left (step Point_eq_dec within1 ls pg) (turn :: turns) st)
     = flush Point_eq_dec ls
         (fold_left (step Point_eq_dec within2 ls pg) (turn :: turns) st).
Proof.
  intros H.
  split; [apply classify_within, H|].
  split; [apply step_within, H|].
  simpl; rewrite (step_within ls pg st turn H).
  rewrite fold_step_within by apply step_first; reflexivity.
Qed.

End WithinIndependence.

(** ** Sorting with a comparator *)

Section SortFacts.

Context {A : Type} (comp : A -> A -> bool).

(** What [std::sort] asks of its comparator, as far as the proofs below
    use it. *)
Hypothesis comp_asym : forall a b, comp a b = true -> comp b a = false.

Lemma comp_irrefl (a : A) : comp a a = false.
Proof.
  destruct (comp a a) eqn:H; [|reflexivity].
  rewrite (comp_asym a a H) in H; discriminate.
Qed.

Lemma StronglySorted_nth (R : A -> A -> Prop) (l : list A) :
  StronglySorted R l ->
  forall (i j : nat) (a b : A),
    (i < j)%nat -> nth_error l i = Some a -> nth_error l j = Some b -> R a b.
Proof.
  induction 1 as [|x l Hs IH Hx]; intros i j a b Hij Ha Hb.
  - destruct i; discriminate.
  - destruct j as [|j]; [lia|].
    simpl in Hb.
    destruct i as [|i]; simpl in Ha.
    + injection Ha as <-.
      rewrite Forall_forall in Hx.
      apply Hx, (nth_error_In _ _ Hb).
    + apply (IH i j); [lia | assumption | assumption].
Qed.

Lemma filter_Permutation (f : A -> bool) (l l' : list A) :
  Permutation l l' -> Permutation (filter f l) (filter f l').
Proof.
  induction 1 as [|x l l' _ IH|x y l|l l' l'' _ IH1 _ IH2]; simpl.
  - constructor.
  - destruct (f x); [constructor|]; exact IH.
  - destruct (f x), (f y); try reflexivity; constructor.
  - etransitivity; eassumption.
Qed.

Lemma ForallOrdPairs_Permutation (R : A -> A -> Prop) (l l' : list A) :
  (forall a b, R a b -> R b a) ->
  Permutation l l' -> ForallOrdPairs R l -> ForallOrdPairs R l'.
Proof.
  intros Hsym.
  induction 1 as [|x l l' Hp IH|x y l|l l' l'' _ IH1 _ IH2]; intros H.
  - exact H.
  - inversion H as [|? ? Hx Hl]; subst.
    constructor; [|apply IH, Hl].
    apply (Permutation_Forall Hp), Hx.
  - inversion H as [|? ? Hy Hl]; subst.
    inversion Hl as [|? ? Hx Hl']; subst.
    inversion Hy as [|? ? Hyx Hyl]; subst.
    constructor; [constructor; [apply Hsym, Hyx | exact Hx]|].
    constructor; assumption.
  - apply IH2, IH1, H.
Qed.

(** Without ties, a sorted list is strictly increasing. *)
Lemma sorted_no_ties_strict (l : list A) :
  StronglySorted (fun a b => comp b a = false) l ->
  ForallOrdPairs (fun a b => comp a b = true \/ comp b a = true) l ->
  StronglySorted (fun a b => comp a b = true) l.
Proof.
  induction 1 as [|x l Hs IH Hx]; intros Hn; [constructor|].
  inversion Hn as [|? ? Hnx Hnl]; subst.
  constructor; [apply IH, Hnl|].
  rewrite Forall_forall in *; intros y Hy.
  destruct (Hnx y Hy) as [H|H]; [exact H|].
  rewrite (Hx y Hy) in H; discriminate.
Qed.

(** A list has at most one strictly increasing arrangement. *)
Lemma strict_sorted_unique (l l' : list A) :
  StronglySorted (fun a b => comp a b = true) l ->
  StronglySorted (fun a b => comp a b = true) l' ->
  Permutation l l' -> l = l'.
Proof.
  intros Hl; revert l'.
  induction Hl as [|x l Hs IH Hx]; intros l' Hl' Hp.
  - symmetry; apply Permutation_nil, Hp.
  - destruct l' as [|y l'].
    + symmetry in Hp; apply Permutation_nil in Hp; discriminate.
    + inversion Hl' as [|? ? Hs' Hy]; subst.
      rewrite Forall_forall in Hx, Hy.
      assert (Hxy : x = y).
      { assert (Hin : In x (y :: l'))
          by (apply (Permutation_in _ Hp); left; reflexivity).
        assert (Hin' : In y (x :: l))
          by (apply (Permutation_in _ (Permutation_sym Hp)); left;
              reflexivity).
        destruct Hin as [Heq | Hin]; [congruence|].
        destruct Hin' as [Heq | Hin']; [congruence|].
        pose proof (Hy x Hin) as H1.
        pose proof (Hx y Hin') as H2.
        rewrite (comp_asym _ _ H1) in H2; discriminate. }
      subst y; f_equal.
      apply IH; [exact Hs'|].
      apply (Permutation_cons_inv Hp).
Qed.

(** *** The two insertion sorts meet the contract of [std::sort] *)

Hypothesis comp_negtrans :
  forall a b c, comp c b = false -> comp b a = false -> comp c a = false.

Lemma insert_before_Permutation (x : A) (l : list A) :
  Permutation (x :: l) (insert_before comp x l).
Proof.
  induction l as [|y l IH]; simpl; [reflexivity|].
  destruct (comp y x); [|reflexivity].
  etransitivity; [apply perm_swap|]; constructor; exact IH.
Qed.

Lemma insert_before_sorted (x : A) (l : list A) :
  StronglySorted (fun a b => comp b a = false) l ->
  StronglySorted (fun a b => comp b a = false) (insert_before comp x l).
Proof.
  induction 1 as [|y l Hs IH Hy]; simpl.
  - constructor; constructor.
  - destruct (comp y x) eqn:Hyx.
    + constructor; [exact IH|].
      apply (Permutation_Forall (insert_before_Permutation x l)).
      constructor; [apply comp_asym, Hyx | exact Hy].
    + constructor; [constructor; assumption|].
      constructor; [exact Hyx|].
      rewrite Forall_forall in *; intros z Hz.
      apply (comp_negtrans x y z); [apply Hy, Hz | exact Hyx].
Qed.

Lemma stable_sort_contract : sort_contract comp (stable_sort comp).
Proof.
  intros l; induction l as [|x l [IHp IHs]]; simpl.
  - split; constructor.
  - split.
    + etransitivity; [|apply insert_before_Permutation].
      constructor; exact IHp.
    + apply insert_before_sorted, IHs.
Qed.

Lemma fold_insert_before (l acc : list A) :
  StronglySorted (fun a b => comp b a = false) acc ->
  Permutation (l ++ acc)
              (fold_left (fun acc x => insert_before comp x acc) l acc)
  /\ StronglySorted (fun a b => comp b a = false)
                    (fold_left (fun acc x => insert_before comp x acc) l acc).
Proof.
  revert acc; induction l as [|x l IH]; intros acc Hacc; simpl.
  - split; [reflexivity | exact Hacc].
  - destruct (IH (insert_before comp x acc) (insert_before_sorted x acc Hacc))
      as [Hp Hs].
    split; [|exact Hs].
    etransitivity; [|exact Hp].
    etransitivity; [apply Permutation_middle|].
    apply Permutation_app_head, insert_before_Permutation.
Qed.

Lemma reversing_sort_contract : sort_contract comp (reversing_sort comp).
Proof.
  intros l; unfold reversing_sort.
  destruct (fold_insert_before l [] (SSorted_nil _)) as [Hp Hs].
  rewrite app_nil_r in Hp; split; assumption.
Qed.

End SortFacts.

(** ** The comparator of [follow] and the sorted turn list *)

Section SortOnSegment.

Context {Point distance_type : Type}.
Variable dist_ltb : distance_type -> distance_type -> bool.

Local Abbreviation Turn := (turn_info Point distance_type).
Local Abbreviation comp := (@sort_on_segment Point distance_type dist_ltb).

Implicit Types (a b c : Turn).

(** [<] on distances is asymmetric. *)
Hypothesis dist_ltb_asym :
  forall d e, dist_ltb d e = true -> dist_ltb e d = false.

Lemma seg_eqb_sym (s t : segment_identifier) : seg_eqb s t = seg_eqb t s.
Proof.
  destruct (seg_eqb s t) eqn:H.
  - apply seg_eqb_eq in H; subst; symmetry; apply seg_eqb_refl.
  - destruct (seg_eqb t s) eqn:H'; [|reflexivity].
    apply seg_eqb_eq in H'; subst; rewrite seg_eqb_refl in H; discriminate.
Qed.

Lemma sort_on_segment_asym a b : comp a b = true -> comp b a = false.
Proof.
  unfold sort_on_segment; rewrite (seg_eqb_sym (seg_id (operations0 b))).
  destruct (seg_eqb _ _); [apply dist_ltb_asym | apply seg_ltb_asym].
Qed.

Lemma sort_on_segment_irrefl a : comp a a = false.
Proof. apply (comp_irrefl _ sort_on_segment_asym). Qed.

(** "Not less" read as "at most" on the key [(seg_id, distance)]. *)
Lemma not_less_key_le a b : comp b a = false -> key_le dist_ltb a b.
Proof.
  unfold sort_on_segment, key_le.
  destruct (seg_eqb _ _) eqn:He; intros H.
  - apply seg_eqb_eq in He; right; split; [congruence | exact H].
  - left; apply seg_ltb_total; [exact H|].
    intros Heq; rewrite Heq, seg_eqb_refl in He; discriminate.
Qed.

Lemma same_key_tied a b : same_key a b -> tied dist_ltb a b = true.
Proof.
  intros [Hs Hd]; unfold tied, sort_on_segment.
  rewrite Hs, seg_eqb_refl, Hd.
  assert (Hirr : dist_ltb (distance (enriched (operations0 b)))
                          (distance (enriched (operations0 b))) = false).
  { destruct (dist_ltb _ _) eqn:H; [|reflexivity].
    rewrite (dist_ltb_asym _ _ H) in H; discriminate. }
  rewrite Hirr; reflexivity.
Qed.

(** If "not less" is transitive on distances, it is on turns. *)
Lemma sort_on_segment_negtrans :
  (forall d e f, dist_ltb f e = false -> dist_ltb e d = false ->
                 dist_ltb f d = false) ->
  forall a b c, comp c b = false -> comp b a = false -> comp c a = false.
Proof.
  intros Hd a b c; unfold sort_on_segment.
  generalize (seg_id (operations0 a)) (seg_id (operations0 b))
             (seg_id (operations0 c)).
  intros sa sb sc.
  destruct (seg_eqb sc sb) eqn:Hcb; destruct (seg_eqb sb sa) eqn:Hba;
    rewrite ?seg_eqb_eq in *.
  - subst sb sc; rewrite seg_eqb_refl; apply Hd.
  - subst sb; rewrite Hba; auto.
  - subst sb; rewrite Hcb; auto.
  - intros H1 H2.
    assert (Hne1 : sc <> sb)
      by (intros E; rewrite E, seg_eqb_refl in Hcb; discriminate).
    assert (Hne2 : sb <> sa)
      by (intros E; rewrite E, seg_eqb_refl in Hba; discriminate).
    pose proof (seg_ltb_total _ _ H1 Hne1) as L1.
    pose proof (seg_ltb_total _ _ H2 Hne2) as L2.
    pose proof (seg_ltb_trans _ _ _ L2 L1) as L3.
    destruct (seg_eqb sc sa) eqn:Hca.
    + apply seg_eqb_eq in Hca; rewrite Hca, seg_ltb_irrefl in L3.
      discriminate.
    + apply seg_ltb_asym, L3.
Qed.

Variable std_sort : (Turn -> Turn -> bool) -> list Turn -> list Turn.

(** [std::sort] meets its contract on the comparator of [follow]. *)
Hypothesis std_sort_contract : sort_contract comp (std_sort comp).

Context (Point_eq_dec : forall p q : Point, {p = q} + {p <> q}).
Context {Polygon : Type} (within : Point -> Polygon -> bool).

Local Abbreviation follow_apply :=
  (apply Point_eq_dec within dist_ltb std_sort).

Lemma std_sort_nil : std_sort comp [] = [].
Proof.
  destruct (std_sort_contract []) as [Hp _].
  apply Permutation_nil, Hp.
Qed.

(** C1, amended: with an empty turn list [apply] writes no piece,
    whether or not the first vertex of the linestring is within the
    polygon; the turn list stays empty. *)
Theorem no_turns_no_pieces (ls : list Point) (pg : Polygon)
    (op : operation_type) :
  follow_apply ls pg op [] = ([], []).
Proof.
  unfold apply; cbv zeta. rewrite std_sort_nil; reflexivity.
Qed.

(** C5, amended: after the sort of [apply] the turn list is
    nondecreasing in (seg_id, distance): a turn that is less than another
    comes before it, and a turn that comes before another is not greater
    than it.  Tied turns come in either order. *)
Theorem sorted_turns_nondecreasing (ls : list Point) (pg : Polygon)
    (op : operation_type) (turns : list Turn) :
  Permutation turns (fst (follow_apply ls pg op turns))
  /\ nondecreasing dist_ltb (fst (follow_apply ls pg op turns))
  /\ forall (i j : nat) a b,
      nth_error (fst (follow_apply ls pg op turns)) i = Some a ->
      nth_error (fst (follow_apply ls pg op turns)) j = Some b ->
      (comp a b = true -> (i < j)%nat)
      /\ ((i < j)%nat -> comp b a = false).
Proof.
  unfold apply; simpl.
  destruct (std_sort_contract turns) as [Hp Hs].
  pose proof (StronglySorted_nth _ _ Hs) as Hn.
  split; [exact Hp|]; split.
  - intros i j a b Hij Ha Hb.
    apply not_less_key_le, (Hn i j a b Hij Ha Hb).
  - intros i j a b Ha Hb; split.
    + intros Hab.
      destruct (Nat.lt_trichotomy i j) as [Hlt | [Heq | Hgt]].
      * exact Hlt.
      * subst j; rewrite Ha in Hb; injection Hb as <-.
        rewrite sort_on_segment_irrefl in Hab; discriminate.
      * pose proof (Hn j i b a Hgt Hb Ha) as H.
        simpl in H; rewrite H in Hab; discriminate.
    + intros Hij; exact (Hn i j a b Hij Ha Hb).
Qed.

(** C6, amended: the sort of [apply] keeps every turn, so the turns tied
    with a given turn are the same before and after it, up to their order;
    [std::sort] does not fix the order among them. *)
Theorem sort_keeps_tied_turns (ls : list Point) (pg : Polygon)
    (op : operation_type) (turns : list Turn) (t : Turn) :
  Permutation (filter (tied dist_ltb t) turns)
              (filter (tied dist_ltb t) (fst (follow_apply ls pg op turns))).
Proof.
  unfold apply; simpl.
  apply filter_Permutation, std_sort_contract.
Qed.

Lemma no_ties_Permutation (l l' : list Turn) :
  Permutation l l' -> no_ties dist_ltb l -> no_ties dist_ltb l'.
Proof.
  apply ForallOrdPairs_Permutation; tauto.
Qed.

(** Sorting a list without ties that is already sorted changes nothing. *)
Lemma std_sort_sorted_no_ties (turns : list Turn) :
  no_ties dist_ltb turns ->
  std_sort comp (std_sort comp turns) = std_sort comp turns.
Proof.
  intros Hn.
  destruct (std_sort_contract turns) as [Hp1 Hs1].
  destruct (std_sort_contract (std_sort comp turns)) as [Hp2 Hs2].
  pose proof (no_ties_Permutation _ _ Hp1 Hn) as Hn1.
  pose proof (no_ties_Permutation _ _ Hp2 Hn1) as Hn2.
  symmetry.
  apply (strict_sorted_unique comp sort_on_segment_asym).
  - apply sorted_no_ties_strict; assumption.
  - apply sorted_no_ties_strict; assumption.
  - exact Hp2.
Qed.

(** C9, amended: when no two turns are tied on (seg_id, distance), a
    second run of [apply] on the turn list left by a first run leaves the
    same turn list and writes the same pieces. *)
Theorem second_run_same_output (ls : list Point) (pg : Polygon)
    (op : operation_type) (turns : list Turn) :
  no_ties dist_ltb turns ->
  follow_apply ls pg op (fst (follow_apply ls pg op turns))
  = follow_apply ls pg op turns.
Proof.
  intros Hn; unfold apply; cbv zeta; simpl fst.
  rewrite (std_sort_sorted_no_ties turns Hn); reflexivity.
Qed.

End SortOnSegment.

(** ** Invariants of the scan *)

Section ScanInvariants.

Context {Point : Type} (Point_eq_dec : forall p q : Point, {p = q} + {p <> q}).
Context {Polygon : Type} (within : Point -> Polygon -> bool).
Context {distance_type : Type}.

Local Abbreviation Turn := (turn_info Point distance_type).
Local Abbreviation step_ := (step Point_eq_dec within).
Local Abbreviation classify_ := (classify within).

Implicit Types (ls : list Point) (pg : Polygon) (turn : Turn)
         (st : @scan_state Point).

(** *** The verdict by kind of operation *)

Lemma none_not_entering turn (op : turn_operation distance_type) :
  operation op = operation_none -> is_entering turn op = false.
Proof. unfold is_entering; intros ->; reflexivity. Qed.

Lemma classify_none ls pg turn (entered1 first : bool) :
  operation (operations0 turn) = operation_none ->
  classify_ ls pg turn entered1 first = IGNORE.
Proof.
  intros Hn; unfold classify, is_staying_inside, is_leaving.
  rewrite (none_not_entering turn _ Hn), Hn; simpl.
  destruct (method_eqb (method turn) method_crosses); reflexivity.
Qed.

(** X1: the operation decides which branches of the loop body a turn can
    take.  An entering-like turn is taken by STAYING_INSIDE or ENTERING, a
    union turn by LEAVING or not at all, a turn with operation none is
    ignored; no turn is both entering and leaving. *)
Theorem verdict_by_operation ls pg turn (entered1 first : bool) :
  (entering_like (operations0 turn) ->
   classify_ ls pg turn entered1 first = STAYING_INSIDE
   \/ classify_ ls pg turn entered1 first = ENTERING)
  /\ (operation (operations0 turn) = operation_union ->
      classify_ ls pg turn entered1 first = LEAVING
      \/ classify_ ls pg turn entered1 first = IGNORE)
  /\ (operation (operations0 turn) = operation_none ->
      classify_ ls pg turn entered1 first = IGNORE)
  /\ (is_entering turn (operations0 turn) = true ->
      is_leaving within turn (operations0 turn) entered1 first ls pg = false).
Proof.
  repeat split.
  - intros He; apply (is_entering_iff turn) in He.
    unfold classify; rewrite He.
    destruct (is_staying_inside _ _ _ _ _ _); auto.
  - intros Hu; unfold classify.
    rewrite (union_not_staying_inside within ls pg turn _ entered1 first Hu).
    rewrite (union_not_entering turn _ Hu).
    destruct (is_leaving _ _ _ _ _ _); auto.
  - apply classify_none.
  - intros He; unfold is_leaving.
    destruct (operation_eqb _ operation_union) eqn:Hu; [|reflexivity].
    apply operation_eqb_eq in Hu.
    rewrite (union_not_entering turn _ Hu) in He; discriminate.
Qed.

(** *** Outside the polygon the current piece is empty *)

Lemma pre_mark_false st turn :
  pre_mark st turn = false -> entered st = false.
Proof.
  unfold pre_mark; destruct (was_entered turn (first st)); congruence.
Qed.

Lemma step_outside_piece_nil ls pg st turn :
  (entered st = false -> current_piece st = []) ->
  entered (step_ ls pg st turn) = false ->
  current_piece (step_ ls pg st turn) = [].
Proof.
  intros Hinv; rewrite step_classify.
  destruct (classify_ _ _ _ _ _); simpl; try discriminate.
  - reflexivity.
  - intros Hp; apply Hinv, (pre_mark_false st turn Hp).
Qed.

Lemma fold_step_outside_piece_nil ls pg (turns : list Turn) st :
  (entered st = false -> current_piece st = []) ->
  entered (fold_left (step_ ls pg) turns st) = false ->
  current_piece (fold_left (step_ ls pg) turns st) = [].
Proof.
  revert st; induction turns as [|turn turns IH]; intros st Hinv; simpl.
  - exact Hinv.
  - apply IH, step_outside_piece_nil, Hinv.
Qed.

(** X2: whenever the scan is outside ([entered] is false) the current
    piece is empty.  So a run that ends outside writes no trailing piece:
    the pieces returned are those written at the LEAVING turns. *)
Theorem ends_outside_no_tail_piece ls pg (turns : list Turn) :
  entered (scan Point_eq_dec within ls pg turns) = false ->
  current_piece (scan Point_eq_dec within ls pg turns) = []
  /\ flush Point_eq_dec ls (scan Point_eq_dec within ls pg turns)
     = out (scan Point_eq_dec within ls pg turns).
Proof.
  intros He.
  assert (Hp : current_piece (scan Point_eq_dec within ls pg turns) = []).
  { apply fold_step_outside_piece_nil; [reflexivity | exact He]. }
  split; [exact Hp|].
  unfold flush, tail_piece; rewrite He, Hp; reflexivity.
Qed.

(** *** How many pieces *)

Lemma step_out_length ls pg st turn :
  (length (out (step_ ls pg st turn))
   <= length (out st) + (if union_turn turn then 1 else 0))%nat.
Proof.
  rewrite step_classify.
  destruct (classify_ ls pg turn (pre_mark st turn) (first st)) eqn:Hc;
    simpl; try lia.
  apply classify_leaving_iff, is_leaving_iff in Hc.
  destruct Hc as [Hu _].
  unfold union_turn; rewrite Hu; simpl.
  rewrite length_app; simpl; lia.
Qed.

Lemma fold_step_out_length ls pg (turns : list Turn) st :
  (length (out (fold_left (step_ ls pg) turns st))
   <= length (out st) + length (filter union_turn turns))%nat.
Proof.
  revert st; induction turns as [|turn turns IH]; intros st; simpl.
  - lia.
  - specialize (IH (step_ ls pg st turn)).
    pose proof (step_out_length ls pg st turn) as Hs.
    destruct (union_turn turn); simpl; lia.
Qed.

Lemma flush_length ls st :
  (length (flush Point_eq_dec ls st) <= length (out st) + 1)%nat.
Proof.
  unfold flush; destruct (tail_piece Point_eq_dec ls st);
    rewrite ?length_app; simpl; lia.
Qed.

(** *** Pieces once written stay *)

Lemma step_out_prefix ls pg st turn :
  exists more, out (step_ ls pg st turn) = out st ++ more.
Proof.
  rewrite step_classify.
  destruct (classify_ _ _ _ _ _); simpl;
    try (exists []; rewrite app_nil_r; reflexivity).
  eexists; reflexivity.
Qed.

Lemma fold_step_out_prefix ls pg (turns : list Turn) st :
  exists more, out (fold_left (step_ ls pg) turns st) = out st ++ more.
Proof.
  revert st; induction turns as [|turn turns IH]; intros st; simpl.
  - exists []; rewrite app_nil_r; reflexivity.
  - destruct (IH (step_ ls pg st turn)) as [m1 H1].
    destruct (step_out_prefix ls pg st turn) as [m2 H2].
    exists (m2 ++ m1); rewrite H1, H2, app_assoc; reflexivity.
Qed.

(** X3: a piece that has been written is never changed or taken back: the
    pieces written up to any point of the scan are a prefix of the pieces
    that [apply] returns. *)
Theorem written_pieces_are_kept ls pg (before after : list Turn) :
  exists more : list (list Point),
    flush Point_eq_dec ls (scan Point_eq_dec within ls pg (before ++ after))
    = out (scan Point_eq_dec within ls pg before) ++ more.
Proof.
  unfold scan; rewrite fold_left_app.
  destruct (fold_step_out_prefix ls pg after
              (fold_left (step_ ls pg) before initial_state)) as [m Hm].
  unfold flush.
  destruct (tail_piece _ _ _).
  - exists m; exact Hm.
  - eexists; rewrite Hm, <- app_assoc; reflexivity.
Qed.

(** *** Turns with operation none *)

Lemma step_none_turn ls pg st turn :
  first st = false -> none_turn turn = true -> step_ ls pg st turn = st.
Proof.
  intros Hf Hn; apply operation_eqb_eq in Hn.
  rewrite step_classify, (classify_none ls pg turn _ _ Hn).
  unfold pre_mark, was_entered; rewrite Hf; simpl.
  destruct st; simpl in *; subst; reflexivity.
Qed.

Lemma fold_step_drop_none ls pg (turns : list Turn) st :
  first st = false ->
  fold_left (step_ ls pg) turns st
  = fold_left (step_ ls pg) (filter (fun t => negb (none_turn t)) turns) st.
Proof.
  revert st; induction turns as [|turn turns IH]; intros st Hf; simpl.
  - reflexivity.
  - destruct (none_turn turn) eqn:Hn; simpl.
    + rewrite (step_none_turn ls pg st turn Hf Hn); apply IH, Hf.
    + apply IH, step_first.
Qed.

(** X4: after the first turn, turns whose operation is none have no
    effect at all: the scan of a turn list ends in the same state, and
    writes the same pieces, as the scan of the list without them. *)
Theorem none_turns_after_first_are_skipped ls pg turn (turns : list Turn) :
  scan Point_eq_dec within ls pg (turn :: turns)
  = scan Point_eq_dec within ls pg
      (turn :: filter (fun t => negb (none_turn t)) turns).
Proof.
  unfold scan; simpl.
  apply fold_step_drop_none, step_first.
Qed.

(** *** The other verdicts *)

(** X12: the STAYING_INSIDE and ENTERING branches spelled out.  An
    entering-like turn stays inside when it does not cross and the scan has
    entered or starts within the polygon; it is ENTERING otherwise, so a
    crossing entering-like turn is always ENTERING.  A turn is ignored when
    its operation is neither entering-like nor a union that leaves. *)
Theorem entering_verdicts ls pg turn (entered1 first : bool) :
  (classify_ ls pg turn entered1 first = STAYING_INSIDE
   <-> method turn <> method_crosses
       /\ entering_like (operations0 turn)
       /\ (entered1 = true
           \/ (first = true /\ within_front within ls pg = true)))
  /\ (classify_ ls pg turn entered1 first = ENTERING
      <-> entering_like (operations0 turn)
          /\ (method turn = method_crosses
              \/ (entered1 = false
                  /\ (first = false \/ within_front within ls pg = false))))
  /\ (classify_ ls pg turn entered1 first = IGNORE
      <-> ~ entering_like (operations0 turn)
          /\ ~ (operation (operations0 turn) = operation_union
                /\ (entered1 = true
                    \/ method turn = method_crosses
                    \/ (first = true /\ within_front within ls pg = true)))).
Proof.
  unfold classify, is_staying_inside, is_leaving, is_entering, entering_like.
  destruct (operation (operations0 turn)), (method turn), entered1, first,
    (within_front within ls pg); simpl;
    repeat split; intros; intuition congruence.
Qed.

(** *** The anchor *)

Lemma step_anchor ls pg st turn :
  current_segment_id (step_ ls pg st turn) = current_segment_id st
  \/ (current_segment_id (step_ ls pg st turn) = seg_id (operations0 turn)
      /\ entering_like (operations0 turn)).
Proof.
  rewrite step_classify.
  destruct (classify_ ls pg turn (pre_mark st turn) (first st)) eqn:Hc;
    simpl; auto.
  right; split; [reflexivity|].
  apply (is_entering_iff turn).
  unfold classify in Hc.
  destruct (is_staying_inside _ _ _ _ _ _); [discriminate|].
  destruct (is_entering turn (operations0 turn)); [reflexivity|].
  destruct (is_leaving _ _ _ _ _ _); discriminate.
Qed.

Lemma fold_step_anchor ls pg (turns : list Turn) st :
  current_segment_id (fold_left (step_ ls pg) turns st)
  = current_segment_id st
  \/ exists t, In t turns /\ entering_like (operations0 t)
               /\ current_segment_id (fold_left (step_ ls pg) turns st)
                  = seg_id (operations0 t).
Proof.
  revert st; induction turns as [|turn turns IH]; intros st; simpl.
  - left; reflexivity.
  - destruct (IH (step_ ls pg st turn)) as [H | [t [Hin [He Ht]]]].
    + destruct (step_anchor ls pg st turn) as [Hs | [Hs He]].
      * left; congruence.
      * right; exists turn; repeat split; auto; congruence.
    + right; exists t; repeat split; auto.
Qed.

(** X13: the anchor [current_segment_id] is at all times the initial
    identifier (0, -1, -1, -1) or the seg_id of an entering-like turn
    already processed; so if no turn has a negative segment index, the
    segment index of the anchor is never below -1. *)
Theorem anchor_initial_or_entering_turn ls pg (turns : list Turn) :
  (current_segment_id (scan Point_eq_dec within ls pg turns)
   = mk_segment_identifier 0 (-1) (-1) (-1)
   \/ exists t, In t turns /\ entering_like (operations0 t)
                /\ current_segment_id (scan Point_eq_dec within ls pg turns)
                   = seg_id (operations0 t))
  /\ ((forall t, In t turns -> 0 <= segment_index (seg_id (operations0 t))) ->
      -1 <= segment_index
              (current_segment_id (scan Point_eq_dec within ls pg turns))).
Proof.
  pose proof (fold_step_anchor ls pg turns initial_state) as H.
  split; [exact H|].
  intros Hseg; unfold scan.
  destruct H as [H | [t [Hin [_ Ht]]]].
  - rewrite H; simpl; lia.
  - rewrite Ht; specialize (Hseg t Hin); lia.
Qed.

End ScanInvariants.

(** ** What the pieces are made of *)

Section PieceContents.

Context {Point : Type} (Point_eq_dec : forall p q : Point, {p = q} + {p <> q}).
Context {Polygon : Type} (within : Point -> Polygon -> bool).
Context {distance_type : Type}.

Local Abbreviation Turn := (turn_info Point distance_type).
Local Abbreviation step_ := (step Point_eq_dec within).
Local Abbreviation append_ := (append_no_duplicates Point_eq_dec).

Implicit Types (ls piece vs : list Point) (pg : Polygon) (turn : Turn)
         (st : @scan_state Point).

(** *** A property of all input points is a property of all output points *)

Section Carried.

Variable Q : Point -> Prop.

Lemma append_Forall piece (p : Point) :
  Forall Q piece -> Q p -> Forall Q (append_ piece p).
Proof.
  intros Hpiece Hp; unfold append_no_duplicates.
  assert (Hs : Forall Q (piece ++ [p]))
    by (apply Forall_app; split; [exact Hpiece | constructor; auto]).
  destruct (back piece) as [q|]; [|exact Hs].
  destruct (Point_eq_dec q p); [exact Hpiece | exact Hs].
Qed.

Lemma fold_append_Forall vs piece :
  Forall Q piece -> Forall Q vs -> Forall Q (fold_left append_ vs piece).
Proof.
  revert piece; induction vs as [|v vs IH]; intros piece Hpiece Hvs; simpl.
  - exact Hpiece.
  - inversion Hvs as [|? ? Hv Hvs']; subst.
    apply IH; [apply append_Forall; assumption | exact Hvs'].
Qed.

Lemma vertices_between_Forall ls (after to_index : Z) :
  Forall Q ls -> Forall Q (vertices_between ls after to_index).
Proof.
  rewrite !Forall_forall; intros Hls v Hv; apply Hls.
  unfold vertices_between in Hv.
  rewrite <- (firstn_skipn (Z.to_nat (after + 1)) ls).
  apply in_or_app; right.
  rewrite <- (firstn_skipn (Z.to_nat (to_index - Z.max after (-1)))
                           (skipn (Z.to_nat (after + 1)) ls)).
  apply in_or_app; left; exact Hv.
Qed.

Lemma copy_segments_Forall ls (from_seg_id : segment_identifier)
    (to_index : Z) piece :
  Forall Q ls -> Forall Q piece ->
  Forall Q (copy_segments Point_eq_dec ls from_seg_id to_index piece).
Proof.
  intros Hls Hpiece; unfold copy_segments.
  apply fold_append_Forall; [exact Hpiece|].
  apply vertices_between_Forall, Hls.
Qed.

Lemma step_Forall ls pg st turn :
  Forall Q ls -> Q (point turn) ->
  Forall Q (current_piece st) /\ Forall (Forall Q) (out st) ->
  Forall Q (current_piece (step_ ls pg st turn))
  /\ Forall (Forall Q) (out (step_ ls pg st turn)).
Proof.
  intros Hls Hp [Hc Ho]; rewrite step_classify.
  destruct (classify within ls pg turn _ _); simpl; split;
    try assumption.
  - apply append_Forall; assumption.
  - constructor.
  - apply Forall_app; split; [exact Ho|].
    constructor; [|constructor].
    apply append_Forall; [|exact Hp].
    apply copy_segments_Forall; assumption.
Qed.

Lemma fold_step_Forall ls pg (turns : list Turn) st :
  Forall Q ls -> Forall (fun t => Q (point t)) turns ->
  Forall Q (current_piece st) /\ Forall (Forall Q) (out st) ->
  Forall Q (current_piece (fold_left (step_ ls pg) turns st))
  /\ Forall (Forall Q) (out (fold_left (step_ ls pg) turns st)).
Proof.
  intros Hls; revert st.
  induction turns as [|turn turns IH]; intros st Ht Hst; simpl.
  - exact Hst.
  - inversion Ht as [|? ? Hp Ht']; subst.
    apply IH; [exact Ht'|].
    apply step_Forall; assumption.
Qed.

Lemma flush_Forall ls st :
  Forall Q ls ->
  Forall Q (current_piece st) /\ Forall (Forall Q) (out st) ->
  Forall (Forall Q) (flush Point_eq_dec ls st).
Proof.
  intros Hls [Hc Ho]; unfold flush.
  assert (Ht : Forall Q (tail_piece Point_eq_dec ls st)).
  { unfold tail_piece; destruct (entered st); [|exact Hc].
    apply copy_segments_Forall; assumption. }
  destruct (tail_piece Point_eq_dec ls st); [exact Ho|].
  apply Forall_app; split; [exact Ho | constructor; [exact Ht | constructor]].
Qed.

Lemma scan_flush_Forall ls pg (turns : list Turn) :
  Forall Q ls -> Forall (fun t => Q (point t)) turns ->
  Forall (Forall Q)
         (flush Point_eq_dec ls (scan Point_eq_dec within ls pg turns)).
Proof.
  intros Hls Ht; apply flush_Forall; [exact Hls|].
  apply fold_step_Forall; [exact Hls | exact Ht|].
  split; constructor.
Qed.

End Carried.

(** *** No vertex is repeated at once *)

Lemma no_adjacent_duplicates_nil : no_adjacent_duplicates (@nil Point).
Proof. intros [|x l1] a b l2 H; discriminate. Qed.

Lemma no_adjacent_duplicates_snoc piece (p : Point) :
  no_adjacent_duplicates piece -> back piece <> Some p ->
  no_adjacent_duplicates (piece ++ [p]).
Proof.
  intros Hpiece Hb l1 a b l2 Heq.
  destruct l2 as [|x l2 _] using rev_ind.
  - change (l1 ++ [a; b]) with (l1 ++ [a] ++ [b]) in Heq.
    rewrite app_assoc in Heq.
    apply app_inj_tail in Heq; destruct Heq as [Hl <-].
    intros ->; apply Hb; rewrite Hl; apply back_snoc.
  - change (l1 ++ a :: b :: l2 ++ [x])
      with (l1 ++ (a :: b :: l2) ++ [x]) in Heq.
    rewrite app_assoc in Heq.
    apply app_inj_tail in Heq; destruct Heq as [Hl _].
    apply (Hpiece l1 a b l2 Hl).
Qed.

Lemma append_no_adjacent_duplicates piece (p : Point) :
  no_adjacent_duplicates piece -> no_adjacent_duplicates (append_ piece p).
Proof.
  intros Hpiece; unfold append_no_duplicates.
  destruct (back piece) as [q|] eqn:Hb.
  - destruct (Point_eq_dec q p) as [|Hne]; [exact Hpiece|].
    apply no_adjacent_duplicates_snoc; [exact Hpiece|].
    rewrite Hb; congruence.
  - apply no_adjacent_duplicates_snoc; [exact Hpiece|].
    rewrite Hb; discriminate.
Qed.

Lemma fold_append_no_adjacent_duplicates vs piece :
  no_adjacent_duplicates piece ->
  no_adjacent_duplicates (fold_left append_ vs piece).
Proof.
  revert piece; induction vs as [|v vs IH]; intros piece Hpiece; simpl.
  - exact Hpiece.
  - apply IH, append_no_adjacent_duplicates, Hpiece.
Qed.

Lemma step_no_adjacent_duplicates ls pg st turn :
  no_adjacent_duplicates (current_piece st)
  /\ Forall no_adjacent_duplicates (out st) ->
  no_adjacent_duplicates (current_piece (step_ ls pg st turn))
  /\ Forall no_adjacent_duplicates (out (step_ ls pg st turn)).
Proof.
  intros [Hc Ho]; rewrite step_classify.
  destruct (classify within ls pg turn _ _); simpl; split;
    try assumption.
  - apply append_no_adjacent_duplicates, Hc.
  - apply no_adjacent_duplicates_nil.
  - apply Forall_app; split; [exact Ho|].
    constructor; [|constructor].
    apply append_no_adjacent_duplicates.
    apply fold_append_no_adjacent_duplicates, Hc.
Qed.

Lemma fold_step_no_adjacent_duplicates ls pg (turns : list Turn) st :
  no_adjacent_duplicates (current_piece st)
  /\ Forall no_adjacent_duplicates (out st) ->
  no_adjacent_duplicates (current_piece (fold_left (step_ ls pg) turns st))
  /\ Forall no_adjacent_duplicates
            (out (fold_left (step_ ls pg) turns st)).
Proof.
  revert st; induction turns as [|turn turns IH]; intros st Hst; simpl.
  - exact Hst.
  - apply IH, step_no_adjacent_duplicates, Hst.
Qed.

(** X5: no piece that [apply] returns has a vertex followed by an equal
    vertex, whatever the linestring and the turns are (the linestring may
    itself repeat vertices). *)
Theorem pieces_without_adjacent_duplicates
    (dist_ltb : distance_type -> distance_type -> bool)
    (sort : (Turn -> Turn -> bool) -> list Turn -> list Turn)
    ls pg (op : operation_type) (turns : list Turn) :
  Forall no_adjacent_duplicates
         (snd (apply Point_eq_dec within dist_ltb sort ls pg op turns)).
Proof.
  unfold apply, scan; simpl.
  destruct (fold_step_no_adjacent_duplicates ls pg
              (sort (sort_on_segment dist_ltb) turns) initial_state)
    as [Hc Ho].
  { split; [apply no_adjacent_duplicates_nil | constructor]. }
  unfold flush.
  destruct (tail_piece Point_eq_dec ls _) eqn:Ht; [exact Ho|].
  apply Forall_app; split; [exact Ho|].
  constructor; [|constructor].
  rewrite <- Ht; unfold tail_piece.
  destruct (entered _); [|exact Hc].
  apply fold_append_no_adjacent_duplicates, Hc.
Qed.

End PieceContents.

(** ** The comparator as an order, and what the sort means for [apply] *)

Section SortedScan.

Context {Point distance_type : Type}.
Variable dist_ltb : distance_type -> distance_type -> bool.

Local Abbreviation Turn := (turn_info Point distance_type).
Local Abbreviation comp := (@sort_on_segment Point distance_type dist_ltb).

Implicit Types (a b c : Turn).

Hypothesis dist_ltb_asym :
  forall d e, dist_ltb d e = true -> dist_ltb e d = false.

Lemma sort_on_segment_trans :
  (forall d e f, dist_ltb d e = true -> dist_ltb e f = true ->
                 dist_ltb d f = true) ->
  forall a b c, comp a b = true -> comp b c = true -> comp a c = true.
Proof.
  intros Hd a b c; unfold sort_on_segment.
  generalize (seg_id (operations0 a)) (seg_id (operations0 b))
             (seg_id (operations0 c)).
  intros sa sb sc.
  destruct (seg_eqb sa sb) eqn:Hab; destruct (seg_eqb sb sc) eqn:Hbc;
    rewrite ?seg_eqb_eq in *.
  - subst sb sc; rewrite seg_eqb_refl; apply Hd.
  - subst sb; rewrite Hbc; auto.
  - subst sc; rewrite Hab; auto.
  - intros L1 L2.
    pose proof (seg_ltb_trans _ _ _ L1 L2) as L3.
    destruct (seg_eqb sa sc) eqn:Hac; [|exact L3].
    apply seg_eqb_eq in Hac; subst sc.
    rewrite seg_ltb_irrefl in L3; discriminate.
Qed.

(** X6: [sort_on_segment] is a strict weak ordering, which is what
    [std::sort] requires of its comparator, as soon as [<] on distances is
    one: it is irreflexive, asymmetric and transitive, and so is "neither
    is less". *)
Theorem sort_on_segment_strict_weak_ordering :
  (forall d e f, dist_ltb d e = true -> dist_ltb e f = true ->
                 dist_ltb d f = true) ->
  (forall d e f, dist_ltb f e = false -> dist_ltb e d = false ->
                 dist_ltb f d = false) ->
  (forall a, comp a a = false)
  /\ (forall a b, comp a b = true -> comp b a = false)
  /\ (forall a b c, comp a b = true -> comp b c = true -> comp a c = true)
  /\ (forall a b c, tied dist_ltb a b = true -> tied dist_ltb b c = true ->
                    tied dist_ltb a c = true).
Proof.
  intros Ht Hn.
  split; [apply (sort_on_segment_irrefl dist_ltb dist_ltb_asym)|].
  split; [apply (sort_on_segment_asym dist_ltb dist_ltb_asym)|].
  split; [apply (sort_on_segment_trans Ht)|].
  intros a b c; unfold tied; rewrite !andb_true_iff, !negb_true_iff.
  intros [Hab Hba] [Hbc Hcb]; split.
  - apply (sort_on_segment_negtrans dist_ltb Hn c b a); assumption.
  - apply (sort_on_segment_negtrans dist_ltb Hn a b c); assumption.
Qed.

Variable std_sort : (Turn -> Turn -> bool) -> list Turn -> list Turn.
Hypothesis std_sort_contract : sort_contract comp (std_sort comp).

Context (Point_eq_dec : forall p q : Point, {p = q} + {p <> q}).
Context {Polygon : Type} (within : Point -> Polygon -> bool).

Local Abbreviation follow_apply :=
  (apply Point_eq_dec within dist_ltb std_sort).

Lemma strictly_increasing_no_ties (l : list Turn) :
  strictly_increasing dist_ltb l -> no_ties dist_ltb l.
Proof.
  induction 1 as [|x l Hs IH Hx]; [constructor|].
  constructor; [|exact IH].
  rewrite Forall_forall in *; intros y Hy; left; apply Hx, Hy.
Qed.

Lemma std_sort_strictly_increasing (l : list Turn) :
  no_ties dist_ltb l -> strictly_increasing dist_ltb (std_sort comp l).
Proof.
  intros Hn; destruct (std_sort_contract l) as [Hp Hs].
  apply sorted_no_ties_strict; [exact Hs|].
  apply (no_ties_Permutation dist_ltb _ _ Hp Hn).
Qed.

(** X7: when no two turns are tied, the result of [apply] does not depend
    on the order in which the caller passes the turns. *)
Theorem apply_permutation_invariant (ls : list Point) (pg : Polygon)
    (op : operation_type) (turns turns' : list Turn) :
  no_ties dist_ltb turns ->
  Permutation turns turns' ->
  follow_apply ls pg op turns' = follow_apply ls pg op turns.
Proof.
  intros Hn Hp.
  assert (Hn' : no_ties dist_ltb turns')
    by (apply (no_ties_Permutation dist_ltb _ _ Hp Hn)).
  assert (Heq : std_sort comp turns' = std_sort comp turns).
  { apply (strict_sorted_unique comp
             (sort_on_segment_asym dist_ltb dist_ltb_asym)).
    - apply std_sort_strictly_increasing, Hn'.
    - apply std_sort_strictly_increasing, Hn.
    - destruct (std_sort_contract turns) as [H1 _].
      destruct (std_sort_contract turns') as [H2 _].
      etransitivity; [symmetry; exact H2|].
      etransitivity; [symmetry; exact Hp | exact H1]. }
  unfold apply; cbv zeta; rewrite Heq; reflexivity.
Qed.

(** X8: a turn list that is already strictly increasing in
    (seg_id, distance) is left as it is by the sort of [apply]. *)
Theorem increasing_turns_unchanged (ls : list Point) (pg : Polygon)
    (op : operation_type) (turns : list Turn) :
  strictly_increasing dist_ltb turns ->
  fst (follow_apply ls pg op turns) = turns.
Proof.
  intros Hs; unfold apply; simpl.
  symmetry.
  apply (strict_sorted_unique comp
           (sort_on_segment_asym dist_ltb dist_ltb_asym)).
  - exact Hs.
  - apply std_sort_strictly_increasing, strictly_increasing_no_ties, Hs.
  - apply std_sort_contract.
Qed.

(** X9: [apply] returns at most one piece per turn whose operation is a
    union, and one more for the end of the linestring. *)
Theorem pieces_bounded_by_union_turns (ls : list Point) (pg : Polygon)
    (op : operation_type) (turns : list Turn) :
  (length (snd (follow_apply ls pg op turns))
   <= length (filter union_turn turns) + 1)%nat.
Proof.
  unfold apply, scan; simpl.
  destruct (std_sort_contract turns) as [Hp _].
  pose proof (Permutation_length (filter_Permutation union_turn _ _ Hp))
    as Hlen.
  pose proof (fold_step_out_length Point_eq_dec within ls pg
                (std_sort comp turns) initial_state) as Hf.
  pose proof (flush_length Point_eq_dec ls
                (fold_left (step Point_eq_dec within ls pg)
                           (std_sort comp turns) initial_state)) as Hl.
  simpl in Hf; lia.
Qed.

(** X10: every vertex of every piece that [apply] returns is a vertex of
    the linestring or the point of one of the turns. *)
Theorem pieces_from_linestring_and_turns (ls : list Point) (pg : Polygon)
    (op : operation_type) (turns : list Turn) :
  Forall (Forall (from_inputs ls turns))
         (snd (follow_apply ls pg op turns)).
Proof.
  unfold apply; simpl.
  destruct (std_sort_contract turns) as [Hp _].
  apply scan_flush_Forall.
  - rewrite Forall_forall; intros v Hv; left; exact Hv.
  - rewrite Forall_forall; intros t Ht; right.
    exists t; split; [|reflexivity].
    apply (Permutation_in _ (Permutation_sym Hp) Ht).
Qed.

End SortedScan.

(** ** When the in-polygon test cannot matter *)

Section WithinUnread.

Context {Point : Type} (Point_eq_dec : forall p q : Point, {p = q} + {p <> q}).
Context {Polygon distance_type : Type}.
Variables within1 within2 : Point -> Polygon -> bool.

Local Abbreviation Turn := (turn_info Point distance_type).

Implicit Types (ls : list Point) (pg : Polygon) (turn : Turn)
         (st : @scan_state Point).

Lemma classify_entered_within ls pg turn (first : bool) :
  classify within1 ls pg turn true first
  = classify within2 ls pg turn true first.
Proof.
  unfold classify, is_staying_inside, is_leaving; reflexivity.
Qed.

Lemma step_entered_within ls pg st turn :
  pre_mark st turn = true \/ none_turn turn = true ->
  step Point_eq_dec within1 ls pg st turn
  = step Point_eq_dec within2 ls pg st turn.
Proof.
  intros H; rewrite !step_classify.
  destruct H as [H | H].
  - rewrite H, (classify_entered_within ls pg turn); reflexivity.
  - apply operation_eqb_eq in H.
    rewrite !(classify_none _ ls pg turn _ _ H); reflexivity.
Qed.

(** X11: if the scan has entered when a turn comes, be it by an earlier
    turn or by the pre-mark of a collinear or equal first turn, or if the
    operation of the turn is none, then the turn and the rest of the scan
    give the same pieces for any two in-polygon predicates. *)
Theorem within_unread_once_entered ls pg st turn (turns : list Turn) :
  pre_mark st turn = true \/ none_turn turn = true ->
  step Point_eq_dec within1 ls pg st turn
  = step Point_eq_dec within2 ls pg st turn
  /\ flush Point_eq_dec ls
       (fold_left (step Point_eq_dec within1 ls pg) (turn :: turns) st)
     = flush Point_eq_dec ls
         (fold_left (step Point_eq_dec within2 ls pg) (turn :: turns) st).
Proof.
  intros H; split; [apply step_entered_within, H|].
  simpl; rewrite (step_entered_within ls pg st turn H).
  rewrite (fold_step_within Point_eq_dec within1 within2)
    by apply step_first.
  reflexivity.
Qed.

End WithinUnread.

(** ** The scenarios, and the statements of the specification on them *)

Module ScenarioFacts.

Import Scenario.

Lemma Z_ltb_asym (d e : Z) : (d <? e) = true -> (e <? d) = false.
Proof. rewrite Z.ltb_lt, Z.ltb_ge; lia. Qed.

Lemma Z_ltb_negtrans (d e f : Z) :
  (f <? e) = false -> (e <? d) = false -> (f <? d) = false.
Proof. rewrite !Z.ltb_ge; lia. Qed.

Lemma scenario_comp_asym (a b : turn_info P2 Z) :
  comp a b = true -> comp b a = false.
Proof. apply sort_on_segment_asym, Z_ltb_asym. Qed.

Lemma scenario_comp_negtrans (a b c : turn_info P2 Z) :
  comp c b = false -> comp b a = false -> comp c a = false.
Proof. apply sort_on_segment_negtrans, Z_ltb_negtrans. Qed.

Lemma stable_sort_meets_contract : sort_contract comp (stable_sort comp).
Proof.
  apply stable_sort_contract;
    [apply scenario_comp_asym | apply scenario_comp_negtrans].
Qed.

Lemma reversing_sort_meets_contract :
  sort_contract comp (reversing_sort comp).
Proof.
  apply reversing_sort_contract;
    [apply scenario_comp_asym | apply scenario_comp_negtrans].
Qed.

(** S1, a single run through the square. *)
Example S1_output : follow S1_line S1_turns = [[(0, 5); (5, 5); (10, 5)]].
Proof. reflexivity. Qed.

(** S2, the linestring starts inside. *)
Example S2_output : follow S2_line S2_turns = [[(5, 5); (10, 5)]].
Proof. reflexivity. Qed.

(** S4, entirely outside and no turns. *)
Example S4_output : follow [(-5, -5); (-1, -1)] [] = [].
Proof. reflexivity. Qed.

(** *** Instances of the theorems *)

Lemma no_turns_no_pieces_witness :
  sort_contract comp (stable_sort comp)
  /\ run stable_sort S5_line [] = ([], []).
Proof.
  split; [exact stable_sort_meets_contract|].
  exact (no_turns_no_pieces Z.ltb stable_sort stable_sort_meets_contract
           P2_eq_dec within_box S5_line square operation_intersection).
Defined.

Lemma first_collinear_entering_stays_inside_witness :
  first (@initial_state P2) = true
  /\ (method S3_turn = method_collinear \/ method S3_turn = method_equal)
  /\ entering_like (operations0 S3_turn)
  /\ was_entered S3_turn (first (@initial_state P2)) = true
  /\ classify within_box S3_line square S3_turn
        (pre_mark initial_state S3_turn) (first (@initial_state P2))
      = STAYING_INSIDE
  /\ step P2_eq_dec within_box S3_line square initial_state S3_turn
     = mk_scan_state true false (current_segment_id (@initial_state P2))
                     (current_piece (@initial_state P2))
                     (out (@initial_state P2)).
Proof.
  assert (H1 : first (@initial_state P2) = true) by reflexivity.
  assert (H2 : method S3_turn = method_collinear
               \/ method S3_turn = method_equal) by (left; reflexivity).
  assert (H3 : entering_like (operations0 S3_turn)) by (left; reflexivity).
  split; [exact H1|]; split; [exact H2|]; split; [exact H3|].
  exact (first_collinear_entering_stays_inside P2_eq_dec within_box S3_line
           square initial_state S3_turn H1 H2 H3).
Defined.

Lemma leaving_always_emits_witness :
  classify within_box S2_line square S2_turn
    (pre_mark initial_state S2_turn) (first (@initial_state P2)) = LEAVING
  /\ exists piece : list P2,
      piece = append_no_duplicates P2_eq_dec
                (copy_segments P2_eq_dec S2_line
                   (current_segment_id (@initial_state P2))
                   (segment_index (seg_id (operations0 S2_turn)))
                   (current_piece (@initial_state P2)))
                (point S2_turn)
      /\ piece <> []
      /\ out (step P2_eq_dec within_box S2_line square initial_state S2_turn)
         = out (@initial_state P2) ++ [piece]
      /\ current_piece
           (step P2_eq_dec within_box S2_line square initial_state S2_turn)
         = []
      /\ entered
           (step P2_eq_dec within_box S2_line square initial_state S2_turn)
         = false.
Proof.
  assert (H : classify within_box S2_line square S2_turn
                (pre_mark initial_state S2_turn) (first (@initial_state P2))
              = LEAVING) by reflexivity.
  split; [exact H|].
  exact (leaving_always_emits P2_eq_dec within_box S2_line square
           initial_state S2_turn H).
Defined.

Lemma within_only_at_first_turn_witness :
  (method S2_turn = method_crosses \/ first (@initial_state P2) = false)
  /\ classify within_box S2_line square S2_turn
        (pre_mark initial_state S2_turn) (first (@initial_state P2))
      = classify outside_box S2_line square S2_turn
          (pre_mark initial_state S2_turn) (first (@initial_state P2))
  /\ step P2_eq_dec within_box S2_line square initial_state S2_turn
     = step P2_eq_dec outside_box S2_line square initial_state S2_turn
  /\ flush P2_eq_dec S2_line
       (fold_left (step P2_eq_dec within_box S2_line square)
                  (S2_turn :: S1_turns) initial_state)
     = flush P2_eq_dec S2_line
         (fold_left (step P2_eq_dec outside_box S2_line square)
                    (S2_turn :: S1_turns) initial_state).
Proof.
  assert (H : method S2_turn = method_crosses
              \/ first (@initial_state P2) = false) by (left; reflexivity).
  split; [exact H|].
  exact (within_only_at_first_turn P2_eq_dec within_box outside_box S2_line
           square initial_state S2_turn S1_turns H).
Defined.

Lemma sorted_turns_nondecreasing_witness :
  (forall d e : Z, (d <? e) = true -> (e <? d) = false)
  /\ sort_contract comp (stable_sort comp)
  /\ Permutation S1_turns (fst (run stable_sort S1_line S1_turns))
  /\ nondecreasing Z.ltb (fst (run stable_sort S1_line S1_turns))
  /\ forall (i j : nat) (a b : turn_info P2 Z),
      nth_error (fst (run stable_sort S1_line S1_turns)) i = Some a ->
      nth_error (fst (run stable_sort S1_line S1_turns)) j = Some b ->
      (comp a b = true -> (i < j)%nat)
      /\ ((i < j)%nat -> comp b a = false).
Proof.
  split; [exact Z_ltb_asym|]; split; [exact stable_sort_meets_contract|].
  exact (sorted_turns_nondecreasing Z.ltb Z_ltb_asym stable_sort
           stable_sort_meets_contract P2_eq_dec within_box S1_line square
           operation_intersection S1_turns).
Defined.

Lemma sort_keeps_tied_turns_witness :
  sort_contract comp (reversing_sort comp)
  /\ Permutation
       (filter (tied Z.ltb tie_leave) tie_turns)
       (filter (tied Z.ltb tie_leave)
               (fst (run reversing_sort S1_line tie_turns))).
Proof.
  split; [exact reversing_sort_meets_contract|].
  exact (sort_keeps_tied_turns Z.ltb reversing_sort
           reversing_sort_meets_contract P2_eq_dec within_box S1_line square
           operation_intersection tie_turns tie_leave).
Defined.

Lemma S1_turns_no_ties : no_ties Z.ltb S1_turns.
Proof.
  unfold no_ties, S1_turns.
  repeat constructor; right; reflexivity.
Qed.

Lemma second_run_same_output_witness :
  (forall d e : Z, (d <? e) = true -> (e <? d) = false)
  /\ sort_contract comp (reversing_sort comp)
  /\ no_ties Z.ltb S1_turns
  /\ run reversing_sort S1_line (fst (run reversing_sort S1_line S1_turns))
     = run reversing_sort S1_line S1_turns.
Proof.
  split; [exact Z_ltb_asym|].
  split; [exact reversing_sort_meets_contract|].
  split; [exact S1_turns_no_ties|].
  exact (second_run_same_output Z.ltb Z_ltb_asym reversing_sort
           reversing_sort_meets_contract P2_eq_dec within_box S1_line square
           operation_intersection S1_turns S1_turns_no_ties).
Defined.

(** *** Where the code departs from the specification *)

(** C1: S5.  The linestring lies inside the square and there is no turn;
    nothing is written, not the linestring itself. *)
Lemma no_turns_start_inside_counterexample :
  hd_error S5_line = Some (1, 1)
  /\ within_box (1, 1) square = true
  /\ snd (run stable_sort S5_line []) = []
  /\ snd (run stable_sort S5_line []) <> [S5_line].
Proof. repeat split; discriminate. Qed.

(** C3: the first turn is collinear with operation intersection.  The
    pre-mark fires, but the point of the turn is not appended and
    [current_segment_id] is not set to the segment of the turn. *)
Lemma first_collinear_entering_counterexample :
  was_entered S3_turn (first (@initial_state P2)) = true
  /\ entering_like (operations0 S3_turn)
  /\ current_piece
       (step P2_eq_dec within_box S3_line square initial_state S3_turn)
     <> append_no_duplicates P2_eq_dec (current_piece (@initial_state P2))
                             (point S3_turn)
  /\ current_segment_id
       (step P2_eq_dec within_box S3_line square initial_state S3_turn)
     <> seg_id (operations0 S3_turn).
Proof.
  split; [reflexivity|]; split; [left; reflexivity|].
  split; vm_compute; discriminate.
Qed.

(** C4: S2.  The scan has not entered and the current piece is empty when
    the leaving turn comes, and a piece is written. *)
Lemma leaving_never_entered_counterexample :
  entered (@initial_state P2) = false
  /\ current_piece (@initial_state P2) = []
  /\ classify within_box S2_line square S2_turn
        (pre_mark initial_state S2_turn) (first (@initial_state P2)) = LEAVING
  /\ out (step P2_eq_dec within_box S2_line square initial_state S2_turn)
     = [[(5, 5); (10, 5)]]
  /\ out (step P2_eq_dec within_box S2_line square initial_state S2_turn)
     <> out (@initial_state P2).
Proof. repeat split; discriminate. Qed.

(** C5: two tied turns.  One comes before the other in the sorted list and
    is not less than it. *)
Lemma tied_turns_precede_counterexample :
  ~ precedes_iff_less Z.ltb (fst (run stable_sort S1_line tie_turns)).
Proof.
  intros H.
  destruct (H 0%nat 1%nat tie_leave tie_enter eq_refl eq_refl) as [Hlt _].
  specialize (Hlt (Nat.lt_0_succ 0)); vm_compute in Hlt; discriminate.
Qed.

(** C6: seventeen turns, the first two tied.  Above sixteen elements the
    introsort of the usual [std::sort] partitions the range and swaps the
    two tied turns; [reversing_sort], which meets the contract, leaves this
    list in the same order. *)
Lemma tie_order_counterexample :
  sort_contract comp (reversing_sort comp)
  /\ same_key tie_leave tie_enter
  /\ fst (run reversing_sort S1_line tie_turns17)
     = tie_enter :: tie_leave :: fillers
  /\ ~ keeps_tie_order tie_turns17
                       (fst (run reversing_sort S1_line tie_turns17)).
Proof.
  split; [exact reversing_sort_meets_contract|].
  split; [split; reflexivity|]; split; [reflexivity|].
  intros H.
  destruct (H 0%nat 1%nat tie_leave tie_enter (Nat.lt_0_succ 0) eq_refl eq_refl)
    as (i & j & Hij & _ & Hj); [split; reflexivity|].
  vm_compute in Hj.
  destruct j as [|j]; [lia|].
  do 17 (destruct j as [|j]; [discriminate|]).
  discriminate.
Qed.

(** C9: the same seventeen turns.  The first run reads the entering turn
    before the leaving one; the second run, on the turn list the first one
    left, reads them the other way round and writes other pieces. *)
Lemma second_run_counterexample :
  sort_contract comp (reversing_sort comp)
  /\ fst (run reversing_sort S1_line tie_turns17)
     = tie_enter :: tie_leave :: fillers
  /\ fst (run reversing_sort S1_line
               (fst (run reversing_sort S1_line tie_turns17)))
     = tie_leave :: tie_enter :: fillers
  /\ snd (run reversing_sort S1_line tie_turns17) = [[(0, 5)]]
  /\ snd (run reversing_sort S1_line
               (fst (run reversing_sort S1_line tie_turns17)))
     = [[(-1, 5); (0, 5)]; [(0, 5); (5, 5); (11, 5)]]
  /\ snd (run reversing_sort S1_line
               (fst (run reversing_sort S1_line tie_turns17)))
     <> snd (run reversing_sort S1_line tie_turns17).
Proof.
  split; [exact reversing_sort_meets_contract|].
  repeat split; discriminate.
Qed.

(** *** Instances of the further properties *)

Lemma Z_ltb_trans (d e f : Z) :
  (d <? e) = true -> (e <? f) = true -> (d <? f) = true.
Proof. rewrite !Z.ltb_lt; lia. Qed.

Lemma S1_sorted_increasing : strictly_increasing Z.ltb S1_sorted.
Proof.
  unfold strictly_increasing, S1_sorted.
  repeat constructor.
Qed.

Lemma ends_outside_no_tail_piece_witness :
  entered (scan P2_eq_dec within_box S1_line square S1_sorted) = false
  /\ current_piece (scan P2_eq_dec within_box S1_line square S1_sorted) = []
  /\ flush P2_eq_dec S1_line
       (scan P2_eq_dec within_box S1_line square S1_sorted)
     = out (scan P2_eq_dec within_box S1_line square S1_sorted).
Proof.
  assert (H : entered (scan P2_eq_dec within_box S1_line square S1_sorted)
              = false) by reflexivity.
  split; [exact H|].
  exact (ends_outside_no_tail_piece P2_eq_dec within_box S1_line square
           S1_sorted H).
Defined.

Lemma sort_on_segment_strict_weak_ordering_witness :
  (forall d e : Z, (d <? e) = true -> (e <? d) = false)
  /\ (forall d e f : Z, (d <? e) = true -> (e <? f) = true -> (d <? f) = true)
  /\ (forall d e f : Z,
        (f <? e) = false -> (e <? d) = false -> (f <? d) = false)
  /\ (forall a : turn_info P2 Z, comp a a = false)
  /\ (forall a b : turn_info P2 Z, comp a b = true -> comp b a = false)
  /\ (forall a b c : turn_info P2 Z,
        comp a b = true -> comp b c = true -> comp a c = true)
  /\ (forall a b c : turn_info P2 Z,
        tied Z.ltb a b = true -> tied Z.ltb b c = true ->
        tied Z.ltb a c = true).
Proof.
  split; [exact Z_ltb_asym|]; split; [exact Z_ltb_trans|].
  split; [exact Z_ltb_negtrans|].
  exact (@sort_on_segment_strict_weak_ordering P2 Z Z.ltb Z_ltb_asym
           Z_ltb_trans Z_ltb_negtrans).
Defined.

Lemma apply_permutation_invariant_witness :
  (forall d e : Z, (d <? e) = true -> (e <? d) = false)
  /\ sort_contract comp (reversing_sort comp)
  /\ no_ties Z.ltb S1_turns
  /\ Permutation S1_turns S1_sorted
  /\ run reversing_sort S1_line S1_sorted
     = run reversing_sort S1_line S1_turns.
Proof.
  assert (Hp : Permutation S1_turns S1_sorted) by apply perm_swap.
  split; [exact Z_ltb_asym|].
  split; [exact reversing_sort_meets_contract|].
  split; [exact S1_turns_no_ties|].
  split; [exact Hp|].
  exact (apply_permutation_invariant Z.ltb Z_ltb_asym reversing_sort
           reversing_sort_meets_contract P2_eq_dec within_box S1_line square
           operation_intersection S1_turns S1_sorted S1_turns_no_ties Hp).
Defined.

Lemma increasing_turns_unchanged_witness :
  (forall d e : Z, (d <? e) = true -> (e <? d) = false)
  /\ sort_contract comp (reversing_sort comp)
  /\ strictly_increasing Z.ltb S1_sorted
  /\ fst (run reversing_sort S1_line S1_sorted) = S1_sorted.
Proof.
  split; [exact Z_ltb_asym|].
  split; [exact reversing_sort_meets_contract|].
  split; [exact S1_sorted_increasing|].
  exact (increasing_turns_unchanged Z.ltb Z_ltb_asym reversing_sort
           reversing_sort_meets_contract P2_eq_dec within_box S1_line square
           operation_intersection S1_sorted S1_sorted_increasing).
Defined.

Lemma pieces_bounded_by_union_turns_witness :
  sort_contract comp (stable_sort comp)
  /\ (length (snd (run stable_sort S1_line S1_turns))
      <= length (filter union_turn S1_turns) + 1)%nat.
Proof.
  split; [exact stable_sort_meets_contract|].
  exact (pieces_bounded_by_union_turns Z.ltb stable_sort
           stable_sort_meets_contract P2_eq_dec within_box S1_line square
           operation_intersection S1_turns).
Defined.

Lemma pieces_from_linestring_and_turns_witness :
  sort_contract comp (stable_sort comp)
  /\ Forall (Forall (from_inputs S1_line S1_turns))
            (snd (run stable_sort S1_line S1_turns)).
Proof.
  split; [exact stable_sort_meets_contract|].
  exact (pieces_from_linestring_and_turns Z.ltb stable_sort
           stable_sort_meets_contract P2_eq_dec within_box S1_line square
           operation_intersection S1_turns).
Defined.

Lemma within_unread_once_entered_witness :
  (pre_mark (@initial_state P2) S3_leave_turn = true
   \/ none_turn S3_leave_turn = true)
  /\ step P2_eq_dec within_box S3_line square initial_state S3_leave_turn
     = step P2_eq_dec outside_box S3_line square initial_state S3_leave_turn
  /\ flush P2_eq_dec S3_line
       (fold_left (step P2_eq_dec within_box S3_line square)
                  (S3_leave_turn :: S1_turns) initial_state)
     = flush P2_eq_dec S3_line
         (fold_left (step P2_eq_dec outside_box S3_line square)
                    (S3_leave_turn :: S1_turns) initial_state).
Proof.
  assert (H : pre_mark (@initial_state P2) S3_leave_turn = true
              \/ none_turn S3_leave_turn = true) by (left; reflexivity).
  split; [exact H|].
  exact (within_unread_once_entered P2_eq_dec within_box outside_box S3_line
           square initial_state S3_leave_turn S1_turns H).
Defined.

End ScenarioFacts.
